(** * Minesweeper knowledge base: a shallow embedding of [minesweeper.py]

    The development models the classes [Sentence] and [MinesweeperAI] of
    [CS50 AI/Project 1/Minesweeper/minesweeper.py].

    - A cell is a pair of Python integers, here [Z * Z].
    - A Python [set] of cells is a [gset cell]; a [for] loop over a set
      visits [elements] of it.  Python does not specify the order; the
      loops of [add_knowledge] are shown not to depend on it, and what is
      proved of [make_safe_move] holds whichever cell comes first.
    - The agent object is mutated in place by its methods; here every
      method takes the agent state and returns the new one.
    - [self.knowledge] is a list of [Sentence] objects that are mutated in
      place; the list of the model holds their current values, and the
      local name [new_sentence] of [add_knowledge], which aliases the last
      element of the list, is read back from the list at every use.
    - [set.remove] raises [KeyError] on a missing element; the methods that
      can raise return an [outcome] that carries the state reached when
      the exception left the method. *)

From stdpp Require Import gmap list.
From Stdlib Require Import ZArith Lia.

Local Open Scope Z_scope.

Definition cell : Type := Z * Z.

(** [range(a, b)] *)
Definition range (a b : Z) : list Z := seqZ a (b - a).

(** [itertools.product(xs, ys)] *)
Definition product (xs ys : list Z) : list cell :=
  x ← xs; y ← ys; [(x, y)].

(** ** class Sentence *)
Module Sentence.

Record t : Type := Build { cells : gset cell; count : Z }.

(** [__init__(self, cells, count)] *)
Definition init (cs : gset cell) (n : Z) : t := Build cs n.

Definition known_mines (self : t) : gset cell :=
  if decide (Z.of_nat (size (cells self)) = count self)
  then cells self else ∅.

Definition known_safes (self : t) : gset cell :=
  if decide (count self = 0) then cells self else ∅.

Definition mark_mine (self : t) (c : cell) : t :=
  if decide (c ∈ cells self)
  then Build (cells self ∖ {[c]}) (count self - 1)
  else self.

Definition mark_safe (self : t) (c : cell) : t :=
  if decide (c ∈ cells self)
  then Build (cells self ∖ {[c]}) (count self)
  else self.

End Sentence.

(** ** class MinesweeperAI *)
Module MinesweeperAI.

Record t : Type := Build {
  height : Z;
  width : Z;
  moves_made : gset cell;
  mines : gset cell;
  safes : gset cell;
  accounted_mines : gset cell;
  knowledge : list Sentence.t
}.

(** What a method that may raise leaves behind. *)
Inductive outcome : Type :=
| Returned (ai : t)
| RaisedKeyError (ai : t).

Definition state_of (o : outcome) : t :=
  match o with Returned ai | RaisedKeyError ai => ai end.

Definition set_moves_made (ai : t) (m : gset cell) : t :=
  Build (height ai) (width ai) m (mines ai) (safes ai)
        (accounted_mines ai) (knowledge ai).

Definition set_mines (ai : t) (m : gset cell) : t :=
  Build (height ai) (width ai) (moves_made ai) m (safes ai)
        (accounted_mines ai) (knowledge ai).

Definition set_safes (ai : t) (m : gset cell) : t :=
  Build (height ai) (width ai) (moves_made ai) (mines ai) m
        (accounted_mines ai) (knowledge ai).

Definition set_knowledge (ai : t) (k : list Sentence.t) : t :=
  Build (height ai) (width ai) (moves_made ai) (mines ai) (safes ai)
        (accounted_mines ai) k.

(** [__init__(self, height, width)] *)
Definition init (h w : Z) : t := Build h w ∅ ∅ ∅ ∅ [].

Definition mark_mine (self : t) (c : cell) : t :=
  let self := set_mines self (mines self ∪ {[c]}) in
  set_knowledge self
    ((λ sentence, Sentence.mark_mine sentence c) <$> knowledge self).

(** The [hasattr] test of the source holds for every object built by
    [__init__], so its branch is always taken. *)
Definition mark_safe (self : t) (c : cell) : t :=
  let self :=
    if decide (c ∈ moves_made self)
    then set_moves_made self (moves_made self ∖ {[c]})
    else self in
  let self := set_safes self (safes self ∪ {[c]}) in
  set_knowledge self
    ((λ sentence, Sentence.mark_safe sentence c) <$> knowledge self).

(** [neighbors.remove(cell)] raises [KeyError] when [cell] is not in the
    product of the two clipped ranges: [None]. *)
Definition get_neighbors (self : t) (c : cell) : option (gset cell) :=
  let '(i, j) := c in
  let neighbors : gset cell :=
    list_to_set
      (product (range (Z.max 0 (i - 1)) (Z.min (height self) (i + 2)))
               (range (Z.max 0 (j - 1)) (Z.min (width self) (j + 2)))) in
  if decide (c ∈ neighbors) then Some (neighbors ∖ {[c]}) else None.

(** Lines 204-206: the loop over [self.mines]; [get_neighbors] is
    evaluated once per visited mine and may raise. *)
Fixpoint adjust_count (self : t) (c : cell) (ms : list cell) (count : Z)
  : option Z :=
  match ms with
  | [] => Some count
  | mine :: ms' =>
      match get_neighbors self c with
      | None => None
      | Some nb =>
          adjust_count self c ms'
            (if decide (mine ∈ nb ∧ mine ∉ accounted_mines self)
             then count - 1 else count)
      end
  end.

(** [for cell in cells: self.mark_safe(cell)] *)
Definition mark_safe_all (self : t) (cs : gset cell) : t :=
  foldl mark_safe self (elements cs).

(** [for cell in cells: self.mark_mine(cell)] *)
Definition mark_mine_all (self : t) (cs : gset cell) : t :=
  foldl mark_mine self (elements cs).

(** Lines 221-238: the body of the loop over [self.knowledge], for the
    sentence at index [k]; [n] is the index of [new_sentence]. *)
Definition infer_step (n : nat) (self : t) (k : nat) : t :=
  match knowledge self !! k, knowledge self !! n with
  | Some sentence, Some new_sentence =>
      if decide (Sentence.cells new_sentence ⊆ Sentence.cells sentence) then
        let difference_cells :=
          Sentence.cells sentence ∖ Sentence.cells new_sentence in
        if decide (Sentence.count sentence - Sentence.count new_sentence = 0)
        then mark_safe_all self difference_cells
        else if decide (Sentence.count sentence - Sentence.count new_sentence
                        = Z.of_nat (size difference_cells))
        then mark_mine_all self difference_cells
        else self
      else if decide (Sentence.cells sentence ⊆ Sentence.cells new_sentence)
      then
        let difference_cells :=
          Sentence.cells new_sentence ∖ Sentence.cells sentence in
        if decide (Sentence.count new_sentence = 0)
        then mark_safe_all self difference_cells
        else if decide (Sentence.count new_sentence - Sentence.count sentence
                        = Z.of_nat (size difference_cells))
        then mark_mine_all self difference_cells
        else self
      else self
  | _, _ => self
  end.

(** Lines 220-238: [for sentence in self.knowledge: ...], [new_sentence]
    being the last element of the list. *)
Definition infer (self : t) : t :=
  let len := length (knowledge self) in
  foldl (infer_step (len - 1)%nat) self (seq 0 len).

(** Lines 212-217: build the new sentence and append it. *)
Definition append_sentence (self : t) (nb : gset cell) (count : Z) : t :=
  let new_sentence_cells :=
    nb ∖ safes self ∖ moves_made self ∖ mines self in
  set_knowledge self
    (knowledge self ++ [Sentence.init new_sentence_cells count]).

Definition add_knowledge (self : t) (c : cell) (count : Z) : outcome :=
  let self := mark_safe self c in
  match adjust_count self c (elements (mines self)) count with
  | None => RaisedKeyError self
  | Some count =>
      let self := set_moves_made self (moves_made self ∪ {[c]}) in
      match get_neighbors self c with
      | None => RaisedKeyError self
      | Some nb => Returned (infer (append_sentence self nb count))
      end
  end.

Definition make_safe_move (self : t) : option cell :=
  let safe_moves :=
    filter (λ c, c ∉ moves_made self) (elements (safes self)) in
  match safe_moves with
  | chosen_move :: _ => Some chosen_move
  | [] => None
  end.

(** [random.choice] picks the element at an index that the caller of the
    model supplies as [r]. *)
Definition make_random_move (self : t) (r : nat) : option cell :=
  let all_cells := product (range 0 (height self)) (range 0 (width self)) in
  let possible_moves :=
    filter (λ c, (c ∉ moves_made self) ∧ (c ∉ mines self)) all_cells in
  match possible_moves with
  | [] => None
  | _ => possible_moves !! Nat.modulo r (length possible_moves)
  end.

(** A 2-tuple is truthy, so [if safe_move:] tests for [None] only. *)
Definition play (self : t) (r : nat) : option cell * t :=
  match make_safe_move self with
  | Some safe_move =>
      let self := set_moves_made self (moves_made self ∪ {[safe_move]}) in
      let self := set_safes self (safes self ∖ {[safe_move]}) in
      (Some safe_move, self)
  | None =>
      match make_random_move self r with
      | Some random_move =>
          (Some random_move,
           set_moves_made self (moves_made self ∪ {[random_move]}))
      | None => (None, self)
      end
  end.

(** The cells of the grid. *)
Definition in_bounds (self : t) (c : cell) : Prop :=
  0 ≤ c.1 < height self ∧ 0 ≤ c.2 < width self.

(** The public operations of the knowledge base. *)
Inductive op : Type :=
| MarkMine (c : cell)
| MarkSafe (c : cell)
| AddKnowledge (c : cell) (count : Z).

Definition run_op (self : t) (o : op) : t :=
  match o with
  | MarkMine c => mark_mine self c
  | MarkSafe c => mark_safe self c
  | AddKnowledge c count => state_of (add_knowledge self c count)
  end.

(** The states an agent built by [__init__] can be in. *)
Inductive reachable (h w : Z) : t → Prop :=
| reach_init : reachable h w (init h w)
| reach_op ai o : reachable h w ai → reachable h w (run_op ai o)
| reach_play ai r : reachable h w ai → reachable h w (play ai r).2.

(** A sequence of [add_knowledge] calls: the states after each call. *)
Fixpoint add_knowledge_seq (self : t) (calls : list (cell * Z)) : list t :=
  match calls with
  | [] => []
  | (c, count) :: calls' =>
      let self' := state_of (add_knowledge self c count) in
      self' :: add_knowledge_seq self' calls'
  end.

End MinesweeperAI.

(** ** The closure the specification describes

    The two definitions below follow the wording of the specification
    (section 4.2, step 5), not the code: they say when a knowledge state is
    a fixed point of the exact-count rule and of the subset-difference
    rule. *)
Module Closure.
Import MinesweeperAI.

Definition exact_rule_settled (ai : t) : Prop :=
  ∀ s, s ∈ knowledge ai →
    Sentence.known_mines s ⊆ mines ai ∧ Sentence.known_safes s ⊆ safes ai.

Definition subset_rule_settled (ai : t) : Prop :=
  ∀ (i j : nat) A B, i ≠ j →
    knowledge ai !! i = Some A → knowledge ai !! j = Some B →
    Sentence.cells A ⊆ Sentence.cells B →
    let diff := Sentence.cells B ∖ Sentence.cells A in
    (Sentence.count B - Sentence.count A = 0 → diff ⊆ safes ai) ∧
    (Sentence.count B - Sentence.count A = Z.of_nat (size diff) →
     diff ⊆ mines ai).

Definition fixed_point (ai : t) : Prop :=
  exact_rule_settled ai ∧ subset_rule_settled ai.

End Closure.

(** ** Consistency of the classification *)
Module Consistency.
Import MinesweeperAI.

(** No live sentence mentions a classified cell. *)
Definition sentences_unclassified (ai : t) : Prop :=
  ∀ s, s ∈ knowledge ai →
    Sentence.cells s ## safes ai ∧ Sentence.cells s ## mines ai.

Definition consistent (ai : t) : Prop :=
  safes ai ## mines ai ∧ sentences_unclassified ai.

(** The cell an operation classifies itself is not already classified
    the other way. *)
Definition compatible (ai : t) (o : op) : Prop :=
  match o with
  | MarkMine c => c ∉ safes ai
  | MarkSafe c => c ∉ mines ai
  | AddKnowledge c _ => c ∉ mines ai
  end.

(** No call of the sequence reveals a cell that is a known mine when
    the call is made. *)
Fixpoint no_known_mine_revealed (ai : t) (calls : list (cell * Z)) : Prop :=
  match calls with
  | [] => True
  | (c, count) :: calls' =>
      (c ∉ mines ai) ∧
      no_known_mine_revealed (state_of (add_knowledge ai c count)) calls'
  end.

(** What no operation touches: the grid and the [accounted_mines]
    set. *)
Definition same_frame (ai ai' : t) : Prop :=
  height ai' = height ai ∧ width ai' = width ai ∧
  accounted_mines ai' = accounted_mines ai.

(** Classified cells stay classified. *)
Definition grows (ai ai' : t) : Prop :=
  safes ai ⊆ safes ai' ∧ mines ai ⊆ mines ai'.

End Consistency.

(** ** Python list indexing

    [l[i]] with a negative [i] counts from the end of the list; outside
    [-len(l) <= i < len(l)] it raises [IndexError], here [None]. *)
Definition getitem {A : Type} (l : list A) (i : Z) : option A :=
  if decide (0 ≤ i) then l !! Z.to_nat i
  else if decide (- Z.of_nat (length l) ≤ i)
  then l !! Z.to_nat (Z.of_nat (length l) + i)
  else None.

(** [l[i] = x] *)
Definition setitem {A : Type} (l : list A) (i : Z) (x : A)
  : option (list A) :=
  let n := if decide (0 ≤ i) then i else Z.of_nat (length l) + i in
  if decide (0 ≤ n < Z.of_nat (length l))
  then Some (<[Z.to_nat n := x]> l) else None.

(** ** class Minesweeper *)
Module Minesweeper.

Record t : Type := Build {
  height : Z;
  width : Z;
  mines : gset cell;
  board : list (list bool);
  mines_found : gset cell
}.

(** How a call can end: it returns, it raises, or (for the [while] loop
    of [__init__]) it is still running when the supply of random numbers
    of the model is used up. *)
Inductive result (A : Type) : Type :=
| Ok (a : A)
| RaisedValueError
| RaisedIndexError
| Looping.
Arguments Ok {A} a.
Arguments RaisedValueError {A}.
Arguments RaisedIndexError {A}.
Arguments Looping {A}.

(** Lines 17-22: the field with no mines. *)
Definition empty_board (h w : Z) : list (list bool) :=
  replicate (Z.to_nat h) (replicate (Z.to_nat w) false).

(** [self.board[i][j]] *)
Definition board_get (b : list (list bool)) (i j : Z) : option bool :=
  row ← getitem b i; getitem row j.

(** [self.board[i][j] = True] *)
Definition board_set (b : list (list bool)) (i j : Z)
  : option (list (list bool)) :=
  row ← getitem b i; row' ← setitem row j true; setitem b i row'.

(** Lines 25-30.  [random.randrange(n)] raises [ValueError] when [n <= 0]
    and otherwise yields a number of [0 .. n-1], here [r mod n] for the next
    number [r] of the supply [draws]. *)
Fixpoint place_mines (draws : list (nat * nat)) (h w target : Z)
    (ms : gset cell) (b : list (list bool))
  : result (gset cell * list (list bool)) :=
  if decide (Z.of_nat (size ms) = target) then Ok (ms, b)
  else if decide (h ≤ 0) then RaisedValueError
  else if decide (w ≤ 0) then RaisedValueError
  else
    match draws with
    | [] => Looping
    | (r1, r2) :: draws' =>
        let i := Z.of_nat r1 `mod` h in
        let j := Z.of_nat r2 `mod` w in
        match board_get b i j with
        | None => RaisedIndexError
        | Some true => place_mines draws' h w target ms b
        | Some false =>
            match board_set b i j with
            | None => RaisedIndexError
            | Some b' => place_mines draws' h w target (ms ∪ {[(i, j)]}) b'
            end
        end
    end.

(** [__init__(self, height, width, mines)] *)
Definition init (h w target : Z) (draws : list (nat * nat)) : result t :=
  match place_mines draws h w target ∅ (empty_board h w) with
  | Ok (ms, b) => Ok (Build h w ms b ∅)
  | RaisedValueError => RaisedValueError
  | RaisedIndexError => RaisedIndexError
  | Looping => Looping
  end.

Definition is_mine (self : t) (c : cell) : option bool :=
  let '(i, j) := c in board_get (board self) i j.

(** Lines 65-74: one visit of the two nested loops of [nearby_mines]. *)
Definition nearby_step (self : t) (c : cell) (acc : option Z) (ij : cell)
  : option Z :=
  count ← acc;
  if decide (ij = c) then Some count
  else if decide (0 ≤ ij.1 < height self ∧ 0 ≤ ij.2 < width self) then
    b ← board_get (board self) ij.1 ij.2;
    Some (if b : bool then count + 1 else count)
  else Some count.

Definition nearby_mines (self : t) (c : cell) : option Z :=
  foldl (nearby_step self c) (Some 0)
    (product (range (c.1 - 1) (c.1 + 2)) (range (c.2 - 1) (c.2 + 2))).

Definition won (self : t) : bool :=
  bool_decide (mines_found self = mines self).

(** The cells of the field. *)
Definition in_bounds (self : t) (c : cell) : Prop :=
  0 ≤ c.1 < height self ∧ 0 ≤ c.2 < width self.

(** The board is [h] rows of [w] flags. *)
Definition shaped (h w : Z) (b : list (list bool)) : Prop :=
  length b = Z.to_nat h ∧ ∀ row, row ∈ b → length row = Z.to_nat w.

(** What [__init__] establishes: the board is [height] rows of [width]
    flags, and the flag of a cell is set exactly for the cells of
    [mines], all of which are on the field. *)
Definition well_formed (self : t) : Prop :=
  shaped (height self) (width self) (board self) ∧
  ∀ c, c ∈ mines self ↔ in_bounds self c ∧ is_mine self c = Some true.

End Minesweeper.

(** ** What the sentences mean

    The docstring of [Sentence]: a sentence consists of a set of board
    cells and a count of the number of those cells which are mines.  [M]
    is the set of the cells that are mines. *)
Module Truth.
Import MinesweeperAI.

Definition holds (M : gset cell) (s : Sentence.t) : Prop :=
  Z.of_nat (size (Sentence.cells s ∩ M)) = Sentence.count s.

(** Everything the agent believes is true of [M]. *)
Definition sound (M : gset cell) (ai : t) : Prop :=
  safes ai ## M ∧ mines ai ⊆ M ∧ moves_made ai ## M ∧
  ∀ s, s ∈ knowledge ai → holds M s.

(** [x] is one of the up to eight cells around [c]. *)
Definition adjacent (c x : cell) : Prop :=
  x ≠ c ∧ c.1 - 1 ≤ x.1 ≤ c.1 + 1 ∧ c.2 - 1 ≤ x.2 ≤ c.2 + 1.

#[export] Instance adjacent_dec c x : Decision (adjacent c x).
Proof. unfold adjacent. apply _. Defined.

(** The states of an agent that is told the truth about a field with
    mines [M]: every revealed cell is free of a mine and comes with the
    number of mines around it, cells are marked by hand only as what they
    are, and the game goes on only after a move that hit no mine. *)
Inductive honest (M : gset cell) (h w : Z) : t → Prop :=
| honest_init : honest M h w (init h w)
| honest_add_knowledge ai c nb :
    honest M h w ai → c ∉ M → get_neighbors ai c = Some nb →
    honest M h w
      (state_of (add_knowledge ai c (Z.of_nat (size (nb ∩ M)))))
| honest_mark_safe ai c :
    honest M h w ai → c ∉ M → honest M h w (mark_safe ai c)
| honest_mark_mine ai c :
    honest M h w ai → c ∈ M → honest M h w (mark_mine ai c)
| honest_play ai r c :
    honest M h w ai → (play ai r).1 = Some c → c ∉ M →
    honest M h w (play ai r).2.

End Truth.

(** ** A revealed cell *)
Module Revealed.
Import MinesweeperAI.

(** The cell is recorded as safe and as played, and no sentence mentions
    it. *)
Definition settled (c : cell) (ai : t) : Prop :=
  c ∈ safes ai ∧ c ∈ moves_made ai ∧
  ∀ s, s ∈ knowledge ai → c ∉ Sentence.cells s.

End Revealed.

Import MinesweeperAI Consistency Truth Revealed.

(** * Sentences *)

Lemma Sentence_mark_safe_cells s c :
  Sentence.cells (Sentence.mark_safe s c) = Sentence.cells s ∖ {[c]}.
Proof.
  unfold Sentence.mark_safe. destruct (decide _) as [Hin|Hin]; simpl; [done|].
  apply set_eq. intros x. rewrite elem_of_difference, elem_of_singleton.
  naive_solver.
Qed.

Lemma Sentence_mark_mine_cells s c :
  Sentence.cells (Sentence.mark_mine s c) = Sentence.cells s ∖ {[c]}.
Proof.
  unfold Sentence.mark_mine. destruct (decide _) as [Hin|Hin]; simpl; [done|].
  apply set_eq. intros x. rewrite elem_of_difference, elem_of_singleton.
  naive_solver.
Qed.

(** * The two mark operations, field by field *)

Lemma mark_safe_safes ai c : safes (mark_safe ai c) = safes ai ∪ {[c]}.
Proof. unfold mark_safe. by case_decide. Qed.

Lemma mark_safe_mines ai c : mines (mark_safe ai c) = mines ai.
Proof. unfold mark_safe. by case_decide. Qed.

Lemma mark_safe_moves_made ai c :
  moves_made (mark_safe ai c) = moves_made ai ∖ {[c]}.
Proof.
  unfold mark_safe. destruct (decide _) as [Hin|Hin]; simpl; [done|].
  apply set_eq. intros x. rewrite elem_of_difference, elem_of_singleton.
  naive_solver.
Qed.

Lemma mark_safe_knowledge ai c :
  knowledge (mark_safe ai c)
  = (λ sentence, Sentence.mark_safe sentence c) <$> knowledge ai.
Proof. unfold mark_safe. by case_decide. Qed.

Lemma mark_safe_dims ai c :
  height (mark_safe ai c) = height ai ∧ width (mark_safe ai c) = width ai ∧
  accounted_mines (mark_safe ai c) = accounted_mines ai.
Proof. unfold mark_safe. by case_decide. Qed.

Lemma mark_mine_safes ai c : safes (mark_mine ai c) = safes ai.
Proof. done. Qed.

Lemma mark_mine_mines ai c : mines (mark_mine ai c) = mines ai ∪ {[c]}.
Proof. done. Qed.

Lemma mark_mine_moves_made ai c : moves_made (mark_mine ai c) = moves_made ai.
Proof. done. Qed.

Lemma mark_mine_knowledge ai c :
  knowledge (mark_mine ai c)
  = (λ sentence, Sentence.mark_mine sentence c) <$> knowledge ai.
Proof. done. Qed.

(** * Neighbours *)

Lemma elem_of_range x a b : x ∈ range a b ↔ a ≤ x < b.
Proof. unfold range. rewrite elem_of_seqZ. lia. Qed.

Lemma elem_of_product x y xs ys : (x, y) ∈ product xs ys ↔ x ∈ xs ∧ y ∈ ys.
Proof.
  unfold product. rewrite list_elem_of_bind. split.
  - intros (x' & Hin & Hx). apply list_elem_of_bind in Hin as (y' & Hin & Hy).
    apply list_elem_of_singleton in Hin. by simplify_eq.
  - intros [Hx Hy]. exists x. split; [|done].
    apply list_elem_of_bind. exists y. split; [|done].
    by apply list_elem_of_singleton.
Qed.

(** [get_neighbors] returns exactly for the cells of the grid. *)
Lemma get_neighbors_in_bounds ai c :
  in_bounds ai c → is_Some (get_neighbors ai c).
Proof.
  destruct c as [i j]. unfold in_bounds, get_neighbors. simpl. intros [Hi Hj].
  case_decide as Hin; [by eexists|]. exfalso. apply Hin.
  rewrite elem_of_list_to_set, elem_of_product, !elem_of_range. lia.
Qed.

Lemma get_neighbors_out_of_bounds ai c :
  ¬ in_bounds ai c → get_neighbors ai c = None.
Proof.
  destruct c as [i j]. unfold in_bounds, get_neighbors. simpl. intros Hout.
  case_decide as Hin; [|done]. exfalso. apply Hout.
  rewrite elem_of_list_to_set, elem_of_product, !elem_of_range in Hin. lia.
Qed.

Lemma get_neighbors_dims ai ai' c :
  height ai' = height ai → width ai' = width ai →
  get_neighbors ai' c = get_neighbors ai c.
Proof. destruct c. unfold get_neighbors. by intros -> ->. Qed.

(** * Loops *)

Section loops.
Context {A B : Type} (f : A → B → A).

(** A property that every iteration of a [for] loop keeps holds when the
    loop ends. *)
Lemma foldl_invariant (P : A → Prop) (l : list B) (a : A) :
  P a → (∀ a' x, x ∈ l → P a' → P (f a' x)) → P (foldl f a l).
Proof.
  revert a. induction l as [|x l IH]; intros a Ha Hstep; simpl; [done|].
  apply IH.
  - apply Hstep; [apply list_elem_of_here|done].
  - intros a' y Hy. apply Hstep. by apply list_elem_of_further.
Qed.

(** A loop whose iterations commute gives the same result in every
    order of visit. *)
Lemma foldl_order_irrelevant (l l' : list B) :
  (∀ a x y, f (f a x) y = f (f a y) x) →
  l ≡ₚ l' → ∀ a, foldl f a l = foldl f a l'.
Proof.
  intros Hcomm. induction 1 as [|x l l' _ IH|x y l|l l' l'' _ IH1 _ IH2];
    intros a; simpl.
  - done.
  - apply IH.
  - by rewrite Hcomm.
  - by rewrite IH1.
Qed.
End loops.

#[local] Instance same_frame_refl : Reflexive same_frame.
Proof. by intros ai. Qed.

#[local] Instance same_frame_trans : Transitive same_frame.
Proof.
  intros a b c (?&?&?) (?&?&?). unfold same_frame.
  by repeat split; congruence.
Qed.

#[local] Instance grows_refl : Reflexive grows.
Proof. by intros ai. Qed.

#[local] Instance grows_trans : Transitive grows.
Proof. intros a b c [??] [??]. split; by etrans. Qed.

Lemma mark_safe_frame ai c : same_frame ai (mark_safe ai c).
Proof. apply mark_safe_dims. Qed.

Lemma mark_mine_frame ai c : same_frame ai (mark_mine ai c).
Proof. done. Qed.

Lemma mark_safe_grows ai c : grows ai (mark_safe ai c).
Proof.
  split; [rewrite mark_safe_safes|rewrite mark_safe_mines]; set_solver.
Qed.

Lemma mark_mine_grows ai c : grows ai (mark_mine ai c).
Proof. split; simpl; set_solver. Qed.

Lemma mark_safe_all_frame ai cs : same_frame ai (mark_safe_all ai cs).
Proof.
  apply (foldl_invariant mark_safe (same_frame ai)); [done|].
  intros a' x _ Ha'. etrans; [done|apply mark_safe_frame].
Qed.

Lemma mark_mine_all_frame ai cs : same_frame ai (mark_mine_all ai cs).
Proof.
  apply (foldl_invariant mark_mine (same_frame ai)); [done|].
  intros a' x _ Ha'. etrans; [done|apply mark_mine_frame].
Qed.

Lemma mark_safe_all_grows ai cs : grows ai (mark_safe_all ai cs).
Proof.
  apply (foldl_invariant mark_safe (grows ai)); [done|].
  intros a' x _ Ha'. etrans; [done|apply mark_safe_grows].
Qed.

Lemma mark_mine_all_grows ai cs : grows ai (mark_mine_all ai cs).
Proof.
  apply (foldl_invariant mark_mine (grows ai)); [done|].
  intros a' x _ Ha'. etrans; [done|apply mark_mine_grows].
Qed.

(** One iteration of the inference loop is either nothing, or a run of
    [mark_safe], or a run of [mark_mine], over cells of one sentence of the
    list. *)
Lemma infer_step_cases n ai k :
  infer_step n ai k = ai ∨
  ∃ s cs, s ∈ knowledge ai ∧ cs ⊆ Sentence.cells s ∧
          (infer_step n ai k = mark_safe_all ai cs ∨
           infer_step n ai k = mark_mine_all ai cs).
Proof.
  unfold infer_step.
  destruct (knowledge ai !! k) as [sentence|] eqn:Hk; [|by left].
  destruct (knowledge ai !! n) as [new_sentence|] eqn:Hn; [|by left].
  apply list_elem_of_lookup_2 in Hk, Hn.
  repeat case_decide; try (by left); right.
  - exists sentence, (Sentence.cells sentence ∖ Sentence.cells new_sentence).
    split_and!; [done|set_solver|by left].
  - exists sentence, (Sentence.cells sentence ∖ Sentence.cells new_sentence).
    split_and!; [done|set_solver|by right].
  - exists new_sentence,
      (Sentence.cells new_sentence ∖ Sentence.cells sentence).
    split_and!; [done|set_solver|by left].
  - exists new_sentence,
      (Sentence.cells new_sentence ∖ Sentence.cells sentence).
    split_and!; [done|set_solver|by right].
Qed.

Lemma infer_step_frame n ai k : same_frame ai (infer_step n ai k).
Proof.
  destruct (infer_step_cases n ai k) as [->|(s & cs & _ & _ & [->| ->])];
    [done|apply mark_safe_all_frame|apply mark_mine_all_frame].
Qed.

Lemma infer_step_grows n ai k : grows ai (infer_step n ai k).
Proof.
  destruct (infer_step_cases n ai k) as [->|(s & cs & _ & _ & [->| ->])];
    [done|apply mark_safe_all_grows|apply mark_mine_all_grows].
Qed.

Lemma infer_frame ai : same_frame ai (infer ai).
Proof.
  unfold infer. apply (foldl_invariant _ (same_frame ai)); [done|].
  intros a' x _ Ha'. etrans; [done|apply infer_step_frame].
Qed.

Lemma infer_grows ai : grows ai (infer ai).
Proof.
  unfold infer. apply (foldl_invariant _ (grows ai)); [done|].
  intros a' x _ Ha'. etrans; [done|apply infer_step_grows].
Qed.

(** * The order in which a set is visited

    The loops of [add_knowledge] run over Python sets, whose order of
    iteration is not specified.  The marking loops and the count loop give
    the same result for every order. *)

Lemma Sentence_mark_safe_eq s c :
  Sentence.mark_safe s c
  = Sentence.Build (Sentence.cells s ∖ {[c]}) (Sentence.count s).
Proof.
  rewrite <- Sentence_mark_safe_cells. unfold Sentence.mark_safe.
  destruct (decide _); [done|by destruct s].
Qed.

Lemma Sentence_mark_mine_eq s c :
  Sentence.mark_mine s c
  = Sentence.Build (Sentence.cells s ∖ {[c]})
      (if decide (c ∈ Sentence.cells s)
       then Sentence.count s - 1 else Sentence.count s).
Proof.
  rewrite <- Sentence_mark_mine_cells. unfold Sentence.mark_mine.
  destruct (decide _); [done|by destruct s].
Qed.

Lemma Sentence_mark_safe_comm s a b :
  Sentence.mark_safe (Sentence.mark_safe s a) b
  = Sentence.mark_safe (Sentence.mark_safe s b) a.
Proof. rewrite !Sentence_mark_safe_eq. simpl. f_equal. set_solver. Qed.

Lemma Sentence_mark_mine_comm s a b :
  Sentence.mark_mine (Sentence.mark_mine s a) b
  = Sentence.mark_mine (Sentence.mark_mine s b) a.
Proof.
  destruct (decide (a = b)) as [->|Hab]; [done|].
  rewrite !Sentence_mark_mine_eq. simpl. f_equal; [set_solver|].
  destruct (decide (a ∈ Sentence.cells s)) as [Ha|Ha],
           (decide (b ∈ Sentence.cells s)) as [Hb|Hb].
  - rewrite !decide_True by set_solver. done.
  - rewrite decide_False, decide_True by set_solver. done.
  - rewrite decide_True, decide_False by set_solver. done.
  - rewrite !decide_False by set_solver. done.
Qed.

Lemma mark_safe_eq ai c :
  mark_safe ai c
  = Build (height ai) (width ai) (moves_made ai ∖ {[c]}) (mines ai)
      (safes ai ∪ {[c]}) (accounted_mines ai)
      ((λ sentence, Sentence.mark_safe sentence c) <$> knowledge ai).
Proof.
  rewrite <- mark_safe_moves_made, <- mark_safe_safes, <- mark_safe_knowledge.
  rewrite <- (mark_safe_mines ai c).
  destruct (mark_safe_dims ai c) as (<- & <- & <-). by destruct (mark_safe ai c).
Qed.

Lemma mark_safe_comm ai a b :
  mark_safe (mark_safe ai a) b = mark_safe (mark_safe ai b) a.
Proof.
  rewrite !mark_safe_eq. simpl. f_equal; [set_solver|set_solver|].
  rewrite <- !list_fmap_compose. apply list_fmap_ext. intros _ s _. simpl.
  apply Sentence_mark_safe_comm.
Qed.

Lemma mark_mine_comm ai a b :
  mark_mine (mark_mine ai a) b = mark_mine (mark_mine ai b) a.
Proof.
  unfold mark_mine, set_knowledge, set_mines. simpl. f_equal; [set_solver|].
  rewrite <- !list_fmap_compose. apply list_fmap_ext. intros _ s _. simpl.
  apply Sentence_mark_mine_comm.
Qed.

Lemma mark_safe_all_order ai cs l :
  l ≡ₚ elements cs → foldl mark_safe ai l = mark_safe_all ai cs.
Proof.
  intros Hl. apply foldl_order_irrelevant; [|done].
  intros. apply mark_safe_comm.
Qed.

Lemma mark_mine_all_order ai cs l :
  l ≡ₚ elements cs → foldl mark_mine ai l = mark_mine_all ai cs.
Proof.
  intros Hl. apply foldl_order_irrelevant; [|done].
  intros. apply mark_mine_comm.
Qed.

(** * Sentences never mention a classified cell *)

Lemma sentences_unclassified_mark_safe ai c :
  sentences_unclassified ai → sentences_unclassified (mark_safe ai c).
Proof.
  intros Hinv s'. rewrite mark_safe_knowledge, mark_safe_safes, mark_safe_mines.
  intros (s & -> & Hs)%list_elem_of_fmap.
  rewrite Sentence_mark_safe_cells. destruct (Hinv s Hs). set_solver.
Qed.

Lemma sentences_unclassified_mark_mine ai c :
  sentences_unclassified ai → sentences_unclassified (mark_mine ai c).
Proof.
  intros Hinv s'. rewrite mark_mine_knowledge, mark_mine_safes, mark_mine_mines.
  intros (s & -> & Hs)%list_elem_of_fmap.
  rewrite Sentence_mark_mine_cells. destruct (Hinv s Hs). set_solver.
Qed.

Lemma consistent_mark_safe ai c :
  consistent ai → c ∉ mines ai → consistent (mark_safe ai c).
Proof.
  intros [Hdisj Hinv] Hc. split; [|by apply sentences_unclassified_mark_safe].
  rewrite mark_safe_safes, mark_safe_mines. set_solver.
Qed.

Lemma consistent_mark_mine ai c :
  consistent ai → c ∉ safes ai → consistent (mark_mine ai c).
Proof.
  intros [Hdisj Hinv] Hc. split; [|by apply sentences_unclassified_mark_mine].
  rewrite mark_mine_safes, mark_mine_mines. set_solver.
Qed.

Lemma sentences_unclassified_mark_safe_all ai cs :
  sentences_unclassified ai → sentences_unclassified (mark_safe_all ai cs).
Proof.
  intros Hinv.
  apply (foldl_invariant mark_safe sentences_unclassified); [done|].
  intros a' x _. apply sentences_unclassified_mark_safe.
Qed.

Lemma sentences_unclassified_mark_mine_all ai cs :
  sentences_unclassified ai → sentences_unclassified (mark_mine_all ai cs).
Proof.
  intros Hinv.
  apply (foldl_invariant mark_mine sentences_unclassified); [done|].
  intros a' x _. apply sentences_unclassified_mark_mine.
Qed.

(** Marking safe a set of cells none of which is a known mine. *)
Lemma consistent_mark_safe_all ai cs :
  consistent ai → cs ## mines ai → consistent (mark_safe_all ai cs).
Proof.
  intros Hc Hcs.
  apply (foldl_invariant mark_safe
           (λ a, consistent a ∧ mines a = mines ai)); [done|].
  intros a' x Hx%elem_of_elements [Ha' Hm]. split.
  - apply consistent_mark_safe; [done|]. rewrite Hm. set_solver.
  - by rewrite mark_safe_mines.
Qed.

(** Marking as mines a set of cells none of which is known safe. *)
Lemma consistent_mark_mine_all ai cs :
  consistent ai → cs ## safes ai → consistent (mark_mine_all ai cs).
Proof.
  intros Hc Hcs.
  apply (foldl_invariant mark_mine
           (λ a, consistent a ∧ safes a = safes ai)); [done|].
  intros a' x Hx%elem_of_elements [Ha' Hm]. split.
  - apply consistent_mark_mine; [done|]. rewrite Hm. set_solver.
  - by rewrite mark_mine_safes.
Qed.

Lemma sentences_unclassified_infer_step n ai k :
  sentences_unclassified ai → sentences_unclassified (infer_step n ai k).
Proof.
  intros Hinv.
  destruct (infer_step_cases n ai k) as [->|(s & cs & _ & _ & [->| ->])];
    [done|by apply sentences_unclassified_mark_safe_all
         |by apply sentences_unclassified_mark_mine_all].
Qed.

Lemma consistent_infer_step n ai k :
  consistent ai → consistent (infer_step n ai k).
Proof.
  intros Hc.
  destruct (infer_step_cases n ai k) as [->|(s & cs & Hs & Hcs & [->| ->])];
    [done| |]; destruct Hc as [Hd Hinv]; destruct (Hinv s Hs).
  - apply consistent_mark_safe_all; [done|set_solver].
  - apply consistent_mark_mine_all; [done|set_solver].
Qed.

Lemma sentences_unclassified_infer ai :
  sentences_unclassified ai → sentences_unclassified (infer ai).
Proof.
  intros Hinv. unfold infer.
  apply (foldl_invariant _ sentences_unclassified); [done|].
  intros a' x _. apply sentences_unclassified_infer_step.
Qed.

Lemma consistent_infer ai : consistent ai → consistent (infer ai).
Proof.
  intros Hc. unfold infer. apply (foldl_invariant _ consistent); [done|].
  intros a' x _. apply consistent_infer_step.
Qed.

(** * The count adjustment *)

Lemma adjust_count_Some ai c nb ms count :
  get_neighbors ai c = Some nb →
  adjust_count ai c ms count
  = Some (count - Z.of_nat (length
            (filter (λ m, m ∈ nb ∧ m ∉ accounted_mines ai) ms))).
Proof.
  intros Hnb. revert count.
  induction ms as [|mine ms IH]; intros count; simpl.
  - f_equal. lia.
  - rewrite Hnb, IH. rewrite filter_cons.
    destruct (decide (mine ∈ nb ∧ mine ∉ accounted_mines ai)); simpl;
      f_equal; lia.
Qed.

Lemma adjust_count_None ai c ms count :
  get_neighbors ai c = None →
  adjust_count ai c ms count = if ms is [] then Some count else None.
Proof. intros Hnb. destruct ms; simpl; [done|by rewrite Hnb]. Qed.

Lemma adjust_count_order ai c ms ms' count :
  ms ≡ₚ ms' → adjust_count ai c ms count = adjust_count ai c ms' count.
Proof.
  intros Hp. destruct (get_neighbors ai c) as [nb|] eqn:Hnb.
  - rewrite !(adjust_count_Some _ _ nb) by done. by rewrite Hp.
  - rewrite !adjust_count_None by done.
    destruct ms, ms'; try done.
    + by apply Permutation_nil_cons in Hp.
    + symmetry in Hp. by apply Permutation_nil_cons in Hp.
Qed.

(** The visited mines that pass the test, counted as a set, when the
    guard set is empty. *)
Lemma length_filter_elements (nb ms acc : gset cell)
    `{!∀ m, Decision (m ∈ nb ∧ m ∉ acc)} :
  acc = ∅ →
  length (filter (λ m, m ∈ nb ∧ m ∉ acc) (elements ms)) = size (nb ∩ ms).
Proof.
  intros ->. unfold size, set_size. simpl. apply Permutation_length.
  apply NoDup_Permutation.
  - apply NoDup_filter, NoDup_elements.
  - apply NoDup_elements.
  - intros x. rewrite list_elem_of_filter, !elem_of_elements. set_solver.
Qed.

(** * The shape of [add_knowledge] *)

(** The agent after lines 201 and 209. *)
Lemma add_knowledge_cases ai c count :
  let ai1 := mark_safe ai c in
  let ai2 := set_moves_made ai1 (moves_made ai1 ∪ {[c]}) in
  (get_neighbors ai c = None ∧
   (add_knowledge ai c count = RaisedKeyError ai1 ∨
    add_knowledge ai c count = RaisedKeyError ai2)) ∨
  (∃ nb count', get_neighbors ai c = Some nb ∧
     add_knowledge ai c count
     = Returned (infer (append_sentence ai2 nb count'))).
Proof.
  intros ai1 ai2. unfold add_knowledge. fold ai1. fold ai2.
  assert (get_neighbors ai1 c = get_neighbors ai c) as Hn1
    by (apply get_neighbors_dims; apply mark_safe_dims).
  assert (get_neighbors ai2 c = get_neighbors ai c) as Hn2
    by (rewrite <- Hn1; by apply get_neighbors_dims).
  destruct (get_neighbors ai c) as [nb|] eqn:Hnb.
  - right. rewrite (adjust_count_Some _ _ nb) by done. rewrite Hn2. eauto.
  - left. split; [done|]. rewrite adjust_count_None by done.
    destruct (elements (mines ai1)); [|by left]. rewrite Hn2. by right.
Qed.

Lemma add_knowledge_returns ai c count :
  in_bounds ai c → ∃ ai', add_knowledge ai c count = Returned ai'.
Proof.
  intros [nb Hnb]%get_neighbors_in_bounds.
  destruct (add_knowledge_cases ai c count) as [[? _]|(?&?&_&->)];
    [congruence|eauto].
Qed.

Lemma sentences_unclassified_append ai nb count :
  sentences_unclassified ai →
  sentences_unclassified (append_sentence ai nb count).
Proof.
  intros Hinv s. unfold append_sentence. simpl.
  intros [Hs| ->%list_elem_of_singleton]%elem_of_app; [by apply Hinv|].
  simpl. set_solver.
Qed.

(** Every outcome of [add_knowledge] leaves the sentences free of
    classified cells, keeps the grid, and only adds to [safes] and
    [mines]. *)
Lemma add_knowledge_sentences_unclassified ai c count :
  sentences_unclassified ai →
  sentences_unclassified (state_of (add_knowledge ai c count)).
Proof.
  intros Hinv%(sentences_unclassified_mark_safe _ c).
  destruct (add_knowledge_cases ai c count)
    as [[_ [-> | ->]]|(nb & count' & _ & ->)]; simpl; [done|done|].
  by apply sentences_unclassified_infer, sentences_unclassified_append.
Qed.

Lemma add_knowledge_consistent ai c count :
  consistent ai → c ∉ mines ai →
  consistent (state_of (add_knowledge ai c count)).
Proof.
  intros Hc Hm. pose proof (consistent_mark_safe _ _ Hc Hm) as [Hd Hinv].
  destruct (add_knowledge_cases ai c count)
    as [[_ [-> | ->]]|(nb & count' & _ & ->)]; simpl; [done|done|].
  apply consistent_infer. split; [done|].
  by apply sentences_unclassified_append.
Qed.

Lemma add_knowledge_grows ai c count :
  grows ai (state_of (add_knowledge ai c count)).
Proof.
  pose proof (mark_safe_grows ai c) as Hg.
  destruct (add_knowledge_cases ai c count)
    as [[_ [-> | ->]]|(nb & count' & _ & ->)]; simpl; [done|done|].
  etrans; [|apply infer_grows]. done.
Qed.

Lemma add_knowledge_frame ai c count :
  same_frame ai (state_of (add_knowledge ai c count)).
Proof.
  pose proof (mark_safe_frame ai c) as Hg.
  destruct (add_knowledge_cases ai c count)
    as [[_ [-> | ->]]|(nb & count' & _ & ->)]; simpl; [done|done|].
  etrans; [|apply infer_frame]. done.
Qed.

(** * Concrete runs *)

(** The three reveals of a 3x2 board whose only mine is at (1,0) or (1,1),
    the superset sentence coming last: the cell (2,1) stays unclassified. *)
Lemma run_superset_last :
  last (add_knowledge_seq (init 3 2) [((0, 1), 1); ((0, 0), 1); ((2, 0), 1)])
  = Some (Build 3 2 {[(0, 1); (0, 0); (2, 0)]} ∅ {[(0, 1); (0, 0); (2, 0)]} ∅
            [Sentence.Build {[(1, 0); (1, 1)]} 1;
             Sentence.Build {[(1, 0); (1, 1)]} 1;
             Sentence.Build {[(1, 0); (1, 1); (2, 1)]} 1]).
Proof. vm_compute. reflexivity. Qed.

(** The same reveals with the subset sentence coming last: (2,1) is
    marked safe by the subset branch. *)
Lemma run_subset_last :
  last (add_knowledge_seq (init 3 2) [((0, 1), 1); ((2, 0), 1); ((0, 0), 1)])
  = Some (Build 3 2 {[(0, 1); (0, 0); (2, 0)]} ∅
            {[(0, 1); (0, 0); (2, 0); (2, 1)]} ∅
            [Sentence.Build {[(1, 0); (1, 1)]} 1;
             Sentence.Build {[(1, 0); (1, 1)]} 1;
             Sentence.Build {[(1, 0); (1, 1)]} 1]).
Proof. vm_compute. reflexivity. Qed.

(** On a 1x3 board, the empty sentence of the second reveal is a subset of
    the sentence of the first and marks (0,2) as a mine; a third reveal, of
    (0,2) itself, then marks it safe as well. *)
Lemma run_reveal_known_mine :
  add_knowledge_seq (init 1 3) [((0, 1), 1); ((0, 0), 0); ((0, 2), 0)]
  = [Build 1 3 {[(0, 1)]} ∅ {[(0, 1)]} ∅
       [Sentence.Build {[(0, 0); (0, 2)]} 1];
     Build 1 3 {[(0, 1); (0, 0)]} {[(0, 2)]} {[(0, 1); (0, 0)]} ∅
       [Sentence.Build ∅ 0; Sentence.Build ∅ 0];
     Build 1 3 {[(0, 1); (0, 0); (0, 2)]} {[(0, 2)]}
       {[(0, 1); (0, 0); (0, 2)]} ∅
       [Sentence.Build ∅ 0; Sentence.Build ∅ 0; Sentence.Build ∅ 0]].
Proof. vm_compute. reflexivity. Qed.

(** * What the inference pass of [add_knowledge] leaves undone *)

(** C1.  [add_knowledge] does not return at a fixed point of the two
    inference rules.  On a fresh 1x2 board, revealing (0,0) with count 0
    leaves the sentence {(0,1)} = 0, whose [known_safes] is {(0,1)}, while
    (0,1) is not in [safes]: the exact-count rule is not settled.  After
    the three reveals of [run_superset_last] the sentences at positions 0
    and 2 are {(1,0),(1,1)} = 1 and {(1,0),(1,1),(2,1)} = 1 and (2,1) is not
    in [safes]: the subset-difference rule is not settled either. *)
Theorem add_knowledge_not_fixed_point :
  (∃ ai, add_knowledge (init 1 2) (0, 0) 0 = Returned ai ∧
         ¬ Closure.exact_rule_settled ai ∧ ¬ Closure.fixed_point ai) ∧
  (∃ ai, last (add_knowledge_seq (init 3 2)
                 [((0, 1), 1); ((0, 0), 1); ((2, 0), 1)]) = Some ai ∧
         ¬ Closure.subset_rule_settled ai ∧ ¬ Closure.fixed_point ai).
Proof.
  split.
  - exists (Build 1 2 {[(0, 0)]} ∅ {[(0, 0)]} ∅ [Sentence.Build {[(0, 1)]} 0]).
    split; [by vm_compute|].
    assert (¬ Closure.exact_rule_settled
              (Build 1 2 {[(0, 0)]} ∅ {[(0, 0)]} ∅
                 [Sentence.Build {[(0, 1)]} 0])) as Hexact.
    { intros Hs.
      destruct (Hs (Sentence.Build {[(0, 1)]} 0)) as [_ Hsafe];
        [simpl; apply list_elem_of_here|].
      unfold Sentence.known_safes in Hsafe. simpl in Hsafe.
      specialize (Hsafe (0, 1)). rewrite !elem_of_singleton in Hsafe.
      by specialize (Hsafe eq_refl). }
    split; [done|]. by intros [? _].
  - eexists. split; [apply run_superset_last|].
    assert (¬ Closure.subset_rule_settled
              (Build 3 2 {[(0, 1); (0, 0); (2, 0)]} ∅
                 {[(0, 1); (0, 0); (2, 0)]} ∅
                 [Sentence.Build {[(1, 0); (1, 1)]} 1;
                  Sentence.Build {[(1, 0); (1, 1)]} 1;
                  Sentence.Build {[(1, 0); (1, 1); (2, 1)]} 1])) as Hsub.
    { intros Hs.
      destruct (Hs 0%nat 2%nat _ _ ltac:(done) eq_refl eq_refl) as [Hsafe _];
        simpl in *; [set_solver|].
      specialize (Hsafe eq_refl (2, 1)). set_solver. }
    split; [done|]. by intros [_ ?].
Qed.

(** C2.  On a fresh 1x2 board, revealing the cell (0,0) with count 1
    returns with the single sentence {(0,1)} = 1 in the knowledge list;
    [known_mines] of that sentence is {(0,1)}, but the call never asks for
    it and [mines] is still empty. *)
Theorem add_knowledge_1x2_mine_unmarked :
  ∃ ai, add_knowledge (init 1 2) (0, 0) 1 = Returned ai ∧
        knowledge ai = [Sentence.Build {[(0, 1)]} 1] ∧
        Sentence.known_mines (Sentence.Build {[(0, 1)]} 1) = {[(0, 1)]} ∧
        mines ai = ∅ ∧ (0, 1) ∉ mines ai.
Proof.
  exists (Build 1 2 {[(0, 0)]} ∅ {[(0, 0)]} ∅ [Sentence.Build {[(0, 1)]} 1]).
  repeat split; by vm_compute.
Qed.

(** C3.  With {A,B} = 1 in the knowledge list and {A,B,C} = 1 added by the
    latest call (A = (1,0), B = (1,1), C = (2,1) on a 3x2 board), both
    sentences are in the list when [add_knowledge] returns and C is not in
    [safes]: the superset branch tests [new_sentence.count == 0] where the
    subset branch tests the difference of the counts. *)
Theorem superset_order_leaves_C_unmarked :
  ∃ ai, last (add_knowledge_seq (init 3 2)
                [((0, 1), 1); ((0, 0), 1); ((2, 0), 1)]) = Some ai ∧
        Sentence.Build {[(1, 0); (1, 1)]} 1 ∈ knowledge ai ∧
        Sentence.Build {[(1, 0); (1, 1); (2, 1)]} 1 ∈ knowledge ai ∧
        ((2, 1) ∉ safes ai) ∧ ((2, 1) ∉ mines ai).
Proof.
  eexists. split; [apply run_superset_last|]. simpl.
  split; [apply list_elem_of_here|].
  split; [do 2 apply list_elem_of_further; apply list_elem_of_here|].
  set_solver.
Qed.

(** * [moves_made] under the mark operations *)

(** What [mark_safe] and [mark_mine] do to [moves_made], cell by
    cell. *)
Lemma mark_safe_moves_made_spec ai c :
  moves_made (mark_safe ai c) = moves_made ai ∖ {[c]} ∧
  (∀ c', c' ∈ moves_made (mark_safe ai c) ↔ c' ∈ moves_made ai ∧ c' ≠ c) ∧
  moves_made (mark_mine ai c) = moves_made ai.
Proof.
  split_and!; [apply mark_safe_moves_made| |done].
  intros c'. rewrite mark_safe_moves_made. set_solver.
Qed.

(** After the reveal of (0,0) on a 1x2 board the cell is in
    [moves_made], and [mark_safe] on it takes it out again. *)
Lemma mark_safe_drops_played_cell :
  let ai := state_of (add_knowledge (init 1 2) (0, 0) 1) in
  (0, 0) ∈ moves_made ai ∧
  ((0, 0) ∉ moves_made (mark_safe ai (0, 0))) ∧
  moves_made (mark_safe ai (0, 0)) ≠ moves_made ai.
Proof.
  assert (state_of (add_knowledge (init 1 2) (0, 0) 1)
          = Build 1 2 {[(0, 0)]} ∅ {[(0, 0)]} ∅
              [Sentence.Build {[(0, 1)]} 1]) as -> by (by vm_compute).
  cbv zeta. rewrite mark_safe_moves_made. simpl.
  split_and!; [set_solver|set_solver|].
  intros Heq. assert ((0, 0) ∈ ({[(0, 0)]} : gset cell)) as Hin by set_solver.
  rewrite <- Heq in Hin. set_solver.
Qed.

(** C4.  The claim, that [mark_safe] never removes a cell from
    [moves_made], fails on the code, against the code's own comments:
    [moves_made] is to keep track of the cells that have been clicked on,
    and [make_safe_move] is to return a move that has not already been
    made.  On a fresh 1x2 agent, after the reveal of (0,0), [mark_safe] on
    (0,0) takes the cell out of [moves_made] and [make_safe_move] proposes
    it again.  The same happens on the inference path: on a fresh 1x3
    agent, after the reveal of (0,1) with count 0, [play] makes the random
    move (0,0); the reveal of (0,2) with count 0 then marks (0,0) safe in
    its inference pass, which takes the played cell out of [moves_made],
    and [make_safe_move] proposes (0,0) again. *)
Theorem mark_safe_unplays_cell :
  (let ai := state_of (add_knowledge (init 1 2) (0, 0) 1) in
   (0, 0) ∈ moves_made ai ∧
   ((0, 0) ∉ moves_made (mark_safe ai (0, 0))) ∧
   make_safe_move (mark_safe ai (0, 0)) = Some (0, 0)) ∧
  (let ai1 := state_of (add_knowledge (init 1 3) (0, 1) 0) in
   let ai2 := (play ai1 0).2 in
   let ai3 := state_of (add_knowledge ai2 (0, 2) 0) in
   (play ai1 0).1 = Some (0, 0) ∧
   (0, 0) ∈ moves_made ai2 ∧
   add_knowledge ai2 (0, 2) 0 = Returned ai3 ∧
   ((0, 0) ∉ moves_made ai3) ∧
   make_safe_move ai3 = Some (0, 0)).
Proof.
  split.
  - assert (state_of (add_knowledge (init 1 2) (0, 0) 1)
            = Build 1 2 {[(0, 0)]} ∅ {[(0, 0)]} ∅
                [Sentence.Build {[(0, 1)]} 1]) as -> by (by vm_compute).
    cbv zeta. split_and!; [simpl; set_solver| |by vm_compute].
    rewrite mark_safe_moves_made. simpl. set_solver.
  - assert (state_of (add_knowledge (init 1 3) (0, 1) 0)
            = Build 1 3 {[(0, 1)]} ∅ {[(0, 1)]} ∅
                [Sentence.Build {[(0, 0); (0, 2)]} 0]) as -> by (by vm_compute).
    cbv zeta.
    assert (play (Build 1 3 {[(0, 1)]} ∅ {[(0, 1)]} ∅
                    [Sentence.Build {[(0, 0); (0, 2)]} 0]) 0
            = (Some (0, 0),
               Build 1 3 {[(0, 1); (0, 0)]} ∅ {[(0, 1)]} ∅
                 [Sentence.Build {[(0, 0); (0, 2)]} 0])) as ->
      by (by vm_compute).
    cbn [fst snd].
    assert (add_knowledge
              (Build 1 3 {[(0, 1); (0, 0)]} ∅ {[(0, 1)]} ∅
                 [Sentence.Build {[(0, 0); (0, 2)]} 0]) (0, 2) 0
            = Returned
                (Build 1 3 {[(0, 1); (0, 2)]} ∅ {[(0, 1); (0, 2); (0, 0)]} ∅
                   [Sentence.Build ∅ 0; Sentence.Build ∅ 0])) as ->
      by (by vm_compute).
    cbn [state_of moves_made].
    split_and!; [done|set_solver|done|set_solver|by vm_compute].
Qed.

(** * Disjointness of the classification *)

(** C5, amended.  Every public operation keeps the cells of every
    sentence disjoint from [safes] and from [mines]; it keeps [safes] and
    [mines] disjoint from each other when the cell it classifies is not
    already classified the other way. *)
Theorem run_op_consistent ai o :
  sentences_unclassified ai →
  sentences_unclassified (run_op ai o) ∧
  (safes ai ## mines ai → compatible ai o →
   safes (run_op ai o) ## mines (run_op ai o)).
Proof.
  intros Hinv. split.
  - destruct o as [c|c|c count]; simpl.
    + by apply sentences_unclassified_mark_mine.
    + by apply sentences_unclassified_mark_safe.
    + by apply add_knowledge_sentences_unclassified.
  - intros Hd Hcompat. assert (consistent ai) as Hc by done.
    destruct o as [c|c|c count]; simpl in *.
    + by apply consistent_mark_mine.
    + by apply consistent_mark_safe.
    + by apply add_knowledge_consistent.
Qed.

Lemma run_op_consistent_witness :
  let ai := Build 3 2 {[(0, 1)]} ∅ {[(0, 1)]} ∅
              [Sentence.Build {[(0, 0); (1, 0); (1, 1)]} 1] in
  let o := AddKnowledge (0, 0) 1 in
  sentences_unclassified (run_op ai o) ∧
  safes (run_op ai o) ## mines (run_op ai o).
Proof.
  intros ai o.
  assert (sentences_unclassified ai) as Hinv.
  { intros s ->%list_elem_of_singleton. simpl. set_solver. }
  destruct (run_op_consistent ai o Hinv) as [H1 H2].
  split; [exact H1|]. apply H2; simpl; set_solver.
Defined.

(** C5 as stated fails: [mark_mine] then [mark_safe] on the in-bounds
    cell (0,0) of a fresh 1x2 agent leave it in both sets. *)
Lemma mark_mine_then_safe_overlap :
  let ai := run_op (run_op (init 1 2) (MarkMine (0, 0))) (MarkSafe (0, 0)) in
  in_bounds (init 1 2) (0, 0) ∧ (0, 0) ∈ safes ai ∧ (0, 0) ∈ mines ai ∧
  ¬ safes ai ## mines ai.
Proof.
  cbv zeta. unfold run_op. rewrite mark_safe_safes, mark_safe_mines. simpl.
  split_and!; [unfold in_bounds; simpl; lia|set_solver|set_solver|set_solver].
Qed.

Lemma sentences_unclassified_play ai r :
  sentences_unclassified ai → sentences_unclassified (play ai r).2.
Proof.
  intros Hinv. unfold play. destruct (make_safe_move ai) as [c|].
  - intros s Hs. destruct (Hinv s Hs). simpl. set_solver.
  - by destruct (make_random_move ai r).
Qed.

(** In every state an agent can reach, no sentence mentions a classified
    cell. *)
Lemma reachable_sentences_unclassified h w ai :
  reachable h w ai → sentences_unclassified ai.
Proof.
  induction 1 as [|ai o _ IH|ai r _ IH].
  - intros s Hs. by apply elem_of_nil in Hs.
  - destruct o as [c|c|c count]; simpl.
    + by apply sentences_unclassified_mark_mine.
    + by apply sentences_unclassified_mark_safe.
    + by apply add_knowledge_sentences_unclassified.
  - by apply sentences_unclassified_play.
Qed.

(** * Sequences of reveals *)

Lemma in_bounds_frame ai ai' c :
  same_frame ai ai' → in_bounds ai c → in_bounds ai' c.
Proof. unfold in_bounds. by intros (-> & -> & _). Qed.

Lemma grows_size ai ai' :
  grows ai ai' →
  (size (safes ai) + size (mines ai) ≤ size (safes ai') + size (mines ai'))%nat.
Proof.
  intros [Hs Hm]. apply subseteq_size in Hs, Hm. lia.
Qed.

Lemma add_knowledge_seq_step_grows calls ai (i : nat) prev next :
  (ai :: add_knowledge_seq ai calls) !! i = Some prev →
  (ai :: add_knowledge_seq ai calls) !! S i = Some next →
  grows prev next.
Proof.
  revert ai i. induction calls as [|[c count] calls IH]; intros ai i; simpl.
  - by destruct i.
  - destruct i as [|i]; simpl.
    + intros [= <-] [= <-]. apply add_knowledge_grows.
    + apply (IH _ i).
Qed.

Lemma add_knowledge_seq_returns calls ai (i : nat) call prev :
  Forall (λ call, in_bounds ai call.1) calls →
  calls !! i = Some call →
  (ai :: add_knowledge_seq ai calls) !! i = Some prev →
  ∃ next, add_knowledge prev call.1 call.2 = Returned next ∧
          (ai :: add_knowledge_seq ai calls) !! S i = Some next.
Proof.
  revert ai i. induction calls as [|[c count] calls IH]; intros ai i Hb; [done|].
  apply Forall_cons in Hb as [Hc Hb]. destruct i as [|i]; simpl.
  - intros [= <-] [= <-]. simpl.
    destruct (add_knowledge_returns ai c count Hc) as [next Hnext].
    exists next. by rewrite Hnext.
  - apply (IH _ i). eapply Forall_impl; [done|]. simpl.
    intros call'. apply in_bounds_frame, add_knowledge_frame.
Qed.

Lemma add_knowledge_seq_consistent calls ai :
  consistent ai → no_known_mine_revealed ai calls →
  Forall consistent (ai :: add_knowledge_seq ai calls).
Proof.
  revert ai. induction calls as [|[c count] calls IH]; intros ai Hc; simpl.
  - intros _. constructor; [done|constructor].
  - intros [Hm Hrest]. constructor; [done|].
    apply IH; [by apply add_knowledge_consistent|done].
Qed.

(** C6, amended.  Along a sequence of [add_knowledge] calls on cells of
    the grid every call returns, [safes] and [mines] only grow, so
    |safes| + |mines| never decreases; and when the agent starts consistent
    and no call reveals a cell that is a known mine at that time, no cell
    is ever in both [safes] and [mines]. *)
Theorem add_knowledge_seq_monotone ai calls :
  Forall (λ call, in_bounds ai call.1) calls →
  (∀ (i : nat) call prev,
     calls !! i = Some call →
     (ai :: add_knowledge_seq ai calls) !! i = Some prev →
     ∃ next, add_knowledge prev call.1 call.2 = Returned next ∧
             (ai :: add_knowledge_seq ai calls) !! S i = Some next ∧
             safes prev ⊆ safes next ∧ mines prev ⊆ mines next ∧
             (size (safes prev) + size (mines prev)
              ≤ size (safes next) + size (mines next))%nat) ∧
  (consistent ai → no_known_mine_revealed ai calls →
   Forall (λ ai', safes ai' ## mines ai') (ai :: add_knowledge_seq ai calls)).
Proof.
  intros Hb. split.
  - intros i call prev Hcall Hprev.
    destruct (add_knowledge_seq_returns _ _ _ _ _ Hb Hcall Hprev)
      as (next & Hret & Hnext).
    exists next. pose proof (add_knowledge_seq_step_grows _ _ _ _ _ Hprev Hnext)
      as Hg.
    split_and!; [done|done|apply Hg|apply Hg|by apply grows_size].
  - intros Hc Hfresh. eapply Forall_impl;
      [by apply add_knowledge_seq_consistent|].
    by intros ai' [? _].
Qed.

Lemma add_knowledge_seq_monotone_witness :
  let ai := init 1 3 in
  let calls := [((0, 1), 1); ((0, 0), 0)] in
  Forall (λ call, in_bounds ai call.1) calls ∧
  no_known_mine_revealed ai calls ∧
  Forall (λ ai', safes ai' ## mines ai') (ai :: add_knowledge_seq ai calls).
Proof.
  intros ai calls.
  assert (Forall (λ call, in_bounds ai call.1) calls) as Hb.
  { repeat constructor; simpl; lia. }
  assert (no_known_mine_revealed ai calls) as Hfresh.
  { simpl. split; [apply not_elem_of_empty|].
    split; [|exact I].
    replace (mines (state_of (add_knowledge ai (0, 1) 1))) with (∅ : gset cell)
      by (by vm_compute).
    apply not_elem_of_empty. }
  split; [exact Hb|]. split; [exact Hfresh|].
  apply (add_knowledge_seq_monotone ai calls Hb); [|exact Hfresh].
  split; [apply disjoint_empty_l|]. intros s Hs. by apply elem_of_nil in Hs.
Defined.

(** C6 as stated fails: three reveals of in-bounds cells of a 1x3 board
    end with (0,2) both in [safes] and in [mines]. *)
Lemma reveal_known_mine_overlap :
  ∃ ai, last (add_knowledge_seq (init 1 3)
                [((0, 1), 1); ((0, 0), 0); ((0, 2), 0)]) = Some ai ∧
        in_bounds (init 1 3) (0, 1) ∧ in_bounds (init 1 3) (0, 0) ∧
        in_bounds (init 1 3) (0, 2) ∧
        (0, 2) ∈ safes ai ∧ (0, 2) ∈ mines ai.
Proof.
  eexists. split; [rewrite run_reveal_known_mine; reflexivity|].
  unfold in_bounds. simpl. split_and!; try lia; set_solver.
Qed.

(** * Cells outside the grid *)

(** C7, amended.  No operation checks its cell on entry.  [mark_mine]
    and [mark_safe] record a cell outside the grid like any other;
    [add_knowledge] marks it safe first and only then fails, with the
    [KeyError] of [get_neighbors]: at the first known mine of the count
    loop, or, when no mine is known, after the cell has also been added to
    [moves_made]. *)
Theorem out_of_bounds_not_rejected ai c count :
  ¬ in_bounds ai c →
  c ∈ mines (mark_mine ai c) ∧ c ∈ safes (mark_safe ai c) ∧
  add_knowledge ai c count
  = RaisedKeyError
      (if decide (mines ai = ∅)
       then set_moves_made (mark_safe ai c)
              (moves_made (mark_safe ai c) ∪ {[c]})
       else mark_safe ai c) ∧
  c ∈ safes (state_of (add_knowledge ai c count)).
Proof.
  intros Hout.
  assert (c ∈ safes (mark_safe ai c)) as Hsafe
    by (rewrite mark_safe_safes; set_solver).
  assert (add_knowledge ai c count
          = RaisedKeyError
              (if decide (mines ai = ∅)
               then set_moves_made (mark_safe ai c)
                      (moves_made (mark_safe ai c) ∪ {[c]})
               else mark_safe ai c)) as Hadd.
  { unfold add_knowledge.
    assert (get_neighbors (mark_safe ai c) c = None) as Hn1.
    { rewrite (get_neighbors_dims ai) by apply mark_safe_dims.
      by apply get_neighbors_out_of_bounds. }
    rewrite (adjust_count_None _ _ _ _ Hn1), mark_safe_mines.
    destruct (elements (mines ai)) as [|m ms] eqn:Hel.
    - apply elements_empty_inv, leibniz_equiv in Hel.
      rewrite decide_True by done.
      rewrite (get_neighbors_dims (mark_safe ai c)) by done. by rewrite Hn1.
    - rewrite decide_False; [done|]. intros Hempty.
      rewrite Hempty, elements_empty in Hel. done. }
  split_and!; [rewrite mark_mine_mines; set_solver|done|done|].
  rewrite Hadd. simpl. by destruct (decide _).
Qed.

Lemma out_of_bounds_not_rejected_witness :
  ¬ in_bounds (init 1 2) (5, 5) ∧
  (5, 5) ∈ safes (state_of (add_knowledge (init 1 2) (5, 5) 1)).
Proof.
  assert (¬ in_bounds (init 1 2) (5, 5)) as Hout.
  { unfold in_bounds. simpl. lia. }
  split; [exact Hout|].
  apply (out_of_bounds_not_rejected (init 1 2) (5, 5) 1 Hout).
Defined.

(** C7 as stated fails: the cell (5,5) is outside a 1x2 grid, yet
    [mark_safe] and [mark_mine] record it, and [add_knowledge] raises only
    after it has put the cell into [safes] and [moves_made]. *)
Lemma out_of_bounds_changes_state :
  ¬ in_bounds (init 1 2) (5, 5) ∧
  mark_safe (init 1 2) (5, 5) = Build 1 2 ∅ ∅ {[(5, 5)]} ∅ [] ∧
  mark_mine (init 1 2) (5, 5) = Build 1 2 ∅ {[(5, 5)]} ∅ ∅ [] ∧
  add_knowledge (init 1 2) (5, 5) 1
  = RaisedKeyError (Build 1 2 {[(5, 5)]} ∅ {[(5, 5)]} ∅ []) ∧
  state_of (add_knowledge (init 1 2) (5, 5) 1) ≠ init 1 2.
Proof.
  split_and!; try by vm_compute.
  unfold in_bounds. simpl. lia.
Qed.

(** * Choosing a move *)

(** C8, amended.  [make_safe_move] only reads the agent.  It returns
    [None] exactly when no safe cell is unplayed; a cell it returns is in
    [safes] and not in [moves_made], and is not in [mines] provided [safes]
    and [mines] are disjoint (the function never looks at [mines]). *)
Theorem make_safe_move_spec ai :
  (make_safe_move ai = None ↔ safes ai ∖ moves_made ai = ∅) ∧
  (∀ c, make_safe_move ai = Some c →
        c ∈ safes ai ∧ (c ∉ moves_made ai) ∧
        (safes ai ## mines ai → c ∉ mines ai)).
Proof.
  unfold make_safe_move.
  destruct (filter _ _) as [|c0 l] eqn:Hf.
  - split; [|done]. split; [|done]. intros _. apply set_eq. intros x.
    rewrite elem_of_difference. split; [|set_solver]. intros [Hx Hnx].
    assert (x ∈ filter (λ c, c ∉ moves_made ai) (elements (safes ai))) as Hin
      by (apply list_elem_of_filter; by rewrite elem_of_elements).
    rewrite Hf in Hin. by apply elem_of_nil in Hin.
  - assert (c0 ∈ filter (λ c, c ∉ moves_made ai) (elements (safes ai))) as Hin
      by (rewrite Hf; apply list_elem_of_here).
    apply list_elem_of_filter in Hin as [Hnot Hin%elem_of_elements].
    split.
    + split; [done|]. intros Hempty. exfalso.
      assert (c0 ∈ safes ai ∖ moves_made ai) as Hc0 by set_solver.
      rewrite Hempty in Hc0. set_solver.
    + intros c [= <-]. split_and!; [done|done|set_solver].
Qed.

Lemma make_safe_move_spec_witness :
  let ai := Build 3 2 {[(0, 1); (0, 0); (2, 0)]} ∅
              {[(0, 1); (0, 0); (2, 0); (2, 1)]} ∅
              [Sentence.Build {[(1, 0); (1, 1)]} 1] in
  make_safe_move ai = Some (2, 1) ∧ safes ai ## mines ai ∧
  (2, 1) ∈ safes ai ∧ ((2, 1) ∉ moves_made ai) ∧ ((2, 1) ∉ mines ai).
Proof.
  intros ai.
  assert (make_safe_move ai = Some (2, 1)) as Hmove by (by vm_compute).
  assert (safes ai ## mines ai) as Hd by (simpl; apply disjoint_empty_r).
  destruct (make_safe_move_spec ai) as [_ Hsome].
  destruct (Hsome (2, 1) Hmove) as (H1 & H2 & H3).
  split_and!; [exact Hmove|exact Hd|exact H1|exact H2|exact (H3 Hd)].
Defined.

(** C8 as stated fails: after [mark_mine] and [mark_safe] on (0,0) the
    move [make_safe_move] returns is a cell of [mines]. *)
Lemma make_safe_move_returns_mine :
  let ai := mark_safe (mark_mine (init 1 2) (0, 0)) (0, 0) in
  make_safe_move ai = Some (0, 0) ∧ (0, 0) ∈ mines ai.
Proof.
  cbv zeta. split; [by vm_compute|].
  rewrite mark_safe_mines, mark_mine_mines. set_solver.
Qed.

(** * The count of the new sentence *)

Lemma play_frame ai r : same_frame ai (play ai r).2.
Proof.
  unfold play. destruct (make_safe_move ai); [done|].
  by destruct (make_random_move ai r).
Qed.

Lemma run_op_frame ai o : same_frame ai (run_op ai o).
Proof.
  destruct o; simpl;
    [apply mark_mine_frame|apply mark_safe_frame|apply add_knowledge_frame].
Qed.

Lemma reachable_frame h w ai :
  reachable h w ai → same_frame (init h w) ai.
Proof.
  induction 1 as [|ai o _ IH|ai r _ IH]; [done| |].
  - etrans; [exact IH|apply run_op_frame].
  - etrans; [exact IH|apply play_frame].
Qed.

(** C9.  In every reachable state [accounted_mines] is empty, and
    [add_knowledge] on a cell of the grid lowers the incoming count by
    the number of neighbours of the cell that are in [mines]: the sentence
    it appends before the inference pass carries [count - |nb ∩ mines|]. *)
Theorem add_knowledge_count_adjustment h w ai :
  reachable h w ai →
  accounted_mines ai = ∅ ∧
  ∀ c count, in_bounds ai c →
    ∃ nb, get_neighbors ai c = Some nb ∧
      adjust_count (mark_safe ai c) c
        (elements (mines (mark_safe ai c))) count
      = Some (count - Z.of_nat (size (nb ∩ mines ai))) ∧
      add_knowledge ai c count
      = Returned
          (infer (append_sentence
                    (set_moves_made (mark_safe ai c)
                       (moves_made (mark_safe ai c) ∪ {[c]}))
                    nb (count - Z.of_nat (size (nb ∩ mines ai))))).
Proof.
  intros (_ & _ & Hacc)%reachable_frame. simpl in Hacc. split; [done|].
  intros c count [nb Hnb]%get_neighbors_in_bounds. exists nb. split; [done|].
  assert (get_neighbors (mark_safe ai c) c = Some nb) as Hn1.
  { rewrite (get_neighbors_dims ai) by apply mark_safe_dims. done. }
  assert (adjust_count (mark_safe ai c) c
            (elements (mines (mark_safe ai c))) count
          = Some (count - Z.of_nat (size (nb ∩ mines ai)))) as Hadj.
  { rewrite (adjust_count_Some _ _ nb) by done.
    rewrite mark_safe_mines, length_filter_elements; [done|].
    destruct (mark_safe_dims ai c) as (_ & _ & ->). done. }
  split; [done|]. unfold add_knowledge. rewrite Hadj.
  rewrite (get_neighbors_dims (mark_safe ai c)) by done. by rewrite Hn1.
Qed.

Lemma add_knowledge_count_adjustment_witness :
  let ai := run_op (run_op (init 1 3) (AddKnowledge (0, 1) 1))
              (AddKnowledge (0, 0) 0) in
  reachable 1 3 ai ∧ in_bounds ai (0, 1) ∧
  accounted_mines ai = ∅ ∧
  ∃ nb, get_neighbors ai (0, 1) = Some nb ∧
    adjust_count (mark_safe ai (0, 1)) (0, 1)
      (elements (mines (mark_safe ai (0, 1)))) 1
    = Some (1 - Z.of_nat (size (nb ∩ mines ai))) ∧
    add_knowledge ai (0, 1) 1
    = Returned
        (infer (append_sentence
                  (set_moves_made (mark_safe ai (0, 1))
                     (moves_made (mark_safe ai (0, 1)) ∪ {[(0, 1)]}))
                  nb (1 - Z.of_nat (size (nb ∩ mines ai))))).
Proof.
  intros ai.
  assert (reachable 1 3 ai) as Hreach.
  { apply reach_op, reach_op, reach_init. }
  assert (in_bounds ai (0, 1)) as Hb.
  { eapply in_bounds_frame; [apply (reachable_frame 1 3), Hreach|].
    unfold in_bounds. simpl. lia. }
  split; [exact Hreach|]. split; [exact Hb|].
  destruct (add_knowledge_count_adjustment 1 3 ai Hreach) as [Hacc Hadj].
  split; [exact Hacc|]. exact (Hadj (0, 1) 1 Hb).
Defined.

(** On the state of the witness the neighbour (0,2) is a known mine and
    the count 1 becomes 0. *)
Lemma adjust_count_known_mine :
  let ai := run_op (run_op (init 1 3) (AddKnowledge (0, 1) 1))
              (AddKnowledge (0, 0) 0) in
  get_neighbors ai (0, 1) = Some {[(0, 0); (0, 2)]} ∧
  mines ai = {[(0, 2)]} ∧
  adjust_count (mark_safe ai (0, 1)) (0, 1)
    (elements (mines (mark_safe ai (0, 1)))) 1 = Some 0.
Proof. by vm_compute. Qed.

(** * Playing a safe move *)

(** C10.  When [play] returns a safe move it adds the cell to
    [moves_made] and removes it from [safes], which loses one element;
    nothing else changes. *)
Theorem play_safe_move_leaves_safes ai r c :
  make_safe_move ai = Some c →
  (play ai r).1 = Some c ∧ c ∈ safes ai ∧
  safes (play ai r).2 = safes ai ∖ {[c]} ∧
  moves_made (play ai r).2 = moves_made ai ∪ {[c]} ∧
  mines (play ai r).2 = mines ai ∧
  knowledge (play ai r).2 = knowledge ai ∧
  (c ∉ safes (play ai r).2) ∧
  S (size (safes (play ai r).2)) = size (safes ai).
Proof.
  intros Hmove. unfold play. rewrite Hmove. simpl.
  assert (c ∈ safes ai) as Hin.
  { unfold make_safe_move in Hmove.
    destruct (filter _ _) as [|c0 l] eqn:Hf; [done|]. injection Hmove as <-.
    assert (c0 ∈ filter (λ c, c ∉ moves_made ai) (elements (safes ai))) as Hin
      by (rewrite Hf; apply list_elem_of_here).
    by apply list_elem_of_filter in Hin as [_ Hin%elem_of_elements]. }
  split_and!; try done; [set_solver|].
  rewrite size_difference by set_solver. rewrite size_singleton.
  assert (size (safes ai) ≠ 0%nat); [|lia].
  intros Hz%size_empty_inv. set_solver.
Qed.

Lemma play_safe_move_leaves_safes_witness :
  let ai := Build 3 2 {[(0, 1); (0, 0); (2, 0)]} ∅
              {[(0, 1); (0, 0); (2, 0); (2, 1)]} ∅
              [Sentence.Build {[(1, 0); (1, 1)]} 1] in
  make_safe_move ai = Some (2, 1) ∧
  (play ai 0).1 = Some (2, 1) ∧
  ((2, 1) ∉ safes (play ai 0).2) ∧
  S (size (safes (play ai 0).2)) = size (safes ai).
Proof.
  intros ai.
  assert (make_safe_move ai = Some (2, 1)) as Hmove by (by vm_compute).
  destruct (play_safe_move_leaves_safes ai 0 (2, 1) Hmove)
    as (H1 & _ & _ & _ & _ & _ & H2 & H3).
  split_and!; [exact Hmove|exact H1|exact H2|exact H3].
Defined.

(** * Sentences, once more *)

(** X1.  Marking the same cell twice in a sentence is the same as
    marking it once. *)
Theorem Sentence_mark_idempotent s c :
  Sentence.mark_mine (Sentence.mark_mine s c) c = Sentence.mark_mine s c ∧
  Sentence.mark_safe (Sentence.mark_safe s c) c = Sentence.mark_safe s c.
Proof.
  split.
  - unfold Sentence.mark_mine at 1.
    rewrite decide_False; [done|]. rewrite Sentence_mark_mine_cells. set_solver.
  - rewrite !Sentence_mark_safe_eq. simpl. f_equal. set_solver.
Qed.

(** ** Sentences that are true of a field *)

Lemma holds_mark_safe M s c :
  holds M s → c ∉ M → holds M (Sentence.mark_safe s c).
Proof.
  unfold holds. intros Hs Hc. rewrite Sentence_mark_safe_eq. simpl.
  replace ((Sentence.cells s ∖ {[c]}) ∩ M) with (Sentence.cells s ∩ M)
    by set_solver. done.
Qed.

Lemma holds_mark_mine M s c :
  holds M s → c ∈ M → holds M (Sentence.mark_mine s c).
Proof.
  unfold holds. intros Hs Hc. rewrite Sentence_mark_mine_eq. simpl.
  destruct (decide (c ∈ Sentence.cells s)) as [Hin|Hin].
  - replace ((Sentence.cells s ∖ {[c]}) ∩ M)
      with ((Sentence.cells s ∩ M) ∖ {[c]}) by set_solver.
    rewrite size_difference by set_solver. rewrite size_singleton.
    assert (size (Sentence.cells s ∩ M) ≠ 0%nat); [|lia].
    intros Hz%size_empty_inv. set_solver.
  - replace ((Sentence.cells s ∖ {[c]}) ∩ M) with (Sentence.cells s ∩ M)
      by set_solver. done.
Qed.

(** A set all of whose cells but none are mines is made of mines. *)
Lemma size_inter_full (X M : gset cell) :
  size (X ∩ M) = size X → X ⊆ M.
Proof.
  intros Hsz.
  assert (X ∩ M = X) as Heq by (apply set_subseteq_size_eq; [set_solver|lia]).
  set_solver.
Qed.

Lemma size_inter_none (X M : gset cell) : size (X ∩ M) = 0%nat → X ## M.
Proof. intros Hz%size_empty_inv. set_solver. Qed.

Lemma holds_count_bounds M s :
  holds M s → 0 ≤ Sentence.count s ≤ Z.of_nat (size (Sentence.cells s)).
Proof.
  unfold holds. intros <-.
  assert (size (Sentence.cells s ∩ M) ≤ size (Sentence.cells s))%nat
    by (apply subseteq_size; set_solver).
  lia.
Qed.

(** X2.  When a sentence is true of the field with mines [M], its count
    lies between 0 and the number of its cells, the cells [known_mines]
    returns are mines and the cells [known_safes] returns are not. *)
Theorem Sentence_known_sound M s :
  holds M s →
  0 ≤ Sentence.count s ≤ Z.of_nat (size (Sentence.cells s)) ∧
  Sentence.known_mines s ⊆ M ∧ Sentence.known_safes s ## M.
Proof.
  intros Hs. split; [by eapply holds_count_bounds|]. unfold holds in Hs. split.
  - unfold Sentence.known_mines. destruct (decide _) as [Heq|]; [|set_solver].
    apply size_inter_full. lia.
  - unfold Sentence.known_safes. destruct (decide _) as [Heq|]; [|set_solver].
    apply size_inter_none. lia.
Qed.

Lemma Sentence_known_sound_witness :
  let M : gset cell := {[(0, 0); (0, 1); (5, 5)]} in
  let s := Sentence.Build {[(0, 0); (0, 1)]} 2 in
  holds M s ∧ Sentence.known_mines s = {[(0, 0); (0, 1)]} ∧
  Sentence.known_mines s ⊆ M ∧ Sentence.known_safes s ## M.
Proof.
  intros M s. assert (holds M s) as Hs by (by vm_compute).
  destruct (Sentence_known_sound M s Hs) as (_ & H1 & H2).
  split_and!; [exact Hs|by vm_compute|exact H1|exact H2].
Defined.

(** X3.  A sentence that is true of the field stays true when a mine of
    the field is marked in it as a mine, and when a cell that is free of
    a mine is marked in it as safe. *)
Theorem Sentence_mark_sound M s c :
  holds M s →
  (c ∈ M → holds M (Sentence.mark_mine s c)) ∧
  (c ∉ M → holds M (Sentence.mark_safe s c)).
Proof. intros Hs. split; [by apply holds_mark_mine|by apply holds_mark_safe]. Qed.

Lemma Sentence_mark_sound_witness :
  let M : gset cell := {[(0, 0); (5, 5)]} in
  let s := Sentence.Build {[(0, 0); (0, 1)]} 1 in
  holds M s ∧
  holds M (Sentence.mark_mine s (0, 0)) ∧
  holds M (Sentence.mark_safe s (0, 1)).
Proof.
  intros M s. assert (holds M s) as Hs by (by vm_compute).
  destruct (Sentence_mark_sound M s (0, 0) Hs) as [H1 _].
  destruct (Sentence_mark_sound M s (0, 1) Hs) as [_ H2].
  split_and!; [exact Hs|apply H1; set_solver|apply H2; set_solver].
Defined.

(** * The agent is told the truth *)

Lemma sound_mark_safe M ai c :
  sound M ai → c ∉ M → sound M (mark_safe ai c).
Proof.
  intros (Hs & Hm & Hp & Hk) Hc. unfold sound.
  rewrite mark_safe_safes, mark_safe_mines, mark_safe_moves_made,
    mark_safe_knowledge.
  split_and!; [set_solver|done|set_solver|].
  intros s' (s & -> & Hin)%list_elem_of_fmap. apply holds_mark_safe; auto.
Qed.

Lemma sound_mark_mine M ai c :
  sound M ai → c ∈ M → sound M (mark_mine ai c).
Proof.
  intros (Hs & Hm & Hp & Hk) Hc. unfold sound.
  rewrite mark_mine_safes, mark_mine_mines, mark_mine_moves_made,
    mark_mine_knowledge.
  split_and!; [done|set_solver|done|].
  intros s' (s & -> & Hin)%list_elem_of_fmap. apply holds_mark_mine; auto.
Qed.

Lemma sound_mark_safe_all M ai cs :
  sound M ai → cs ## M → sound M (mark_safe_all ai cs).
Proof.
  intros Hs Hcs. apply (foldl_invariant mark_safe (sound M)); [done|].
  intros a' x Hx%elem_of_elements Ha'. apply sound_mark_safe; [done|].
  set_solver.
Qed.

Lemma sound_mark_mine_all M ai cs :
  sound M ai → cs ⊆ M → sound M (mark_mine_all ai cs).
Proof.
  intros Hs Hcs. apply (foldl_invariant mark_mine (sound M)); [done|].
  intros a' x Hx%elem_of_elements Ha'. apply sound_mark_mine; [done|].
  set_solver.
Qed.

(** The mines of a set split along a subset of it. *)
Lemma size_inter_split (A B M : gset cell) :
  A ⊆ B → size (B ∩ M) = (size (A ∩ M) + size ((B ∖ A) ∩ M))%nat.
Proof.
  intros HAB. rewrite <- size_union by set_solver. f_equal.
  apply set_eq. intros x. rewrite elem_of_union, !elem_of_intersection,
    elem_of_difference.
  split; [|set_solver]. intros [HB HM].
  destruct (decide (x ∈ A)); [left|right]; done.
Qed.

(** The subset rule, as the loop applies it, is sound in both branches. *)
Lemma sound_infer_step M n ai k :
  sound M ai → sound M (infer_step n ai k).
Proof.
  intros Hsound. pose proof Hsound as (_ & _ & _ & Hk). unfold infer_step.
  destruct (knowledge ai !! k) as [sentence|] eqn:Hsent; [|done].
  destruct (knowledge ai !! n) as [new_sentence|] eqn:Hnew; [|done].
  apply list_elem_of_lookup_2, Hk in Hsent, Hnew. unfold holds in *.
  destruct (decide (Sentence.cells new_sentence ⊆ Sentence.cells sentence))
    as [Hsub|_].
  - pose proof (size_inter_split _ _ M Hsub) as Hsplit.
    destruct (decide _) as [H0|_]; [|destruct (decide _) as [Hall|_]].
    + apply sound_mark_safe_all; [done|]. apply size_inter_none. lia.
    + apply sound_mark_mine_all; [done|]. apply size_inter_full. lia.
    + done.
  - destruct (decide (Sentence.cells sentence ⊆ Sentence.cells new_sentence))
      as [Hsup|_]; [|done].
    pose proof (size_inter_split _ _ M Hsup) as Hsplit.
    destruct (decide _) as [H0|_]; [|destruct (decide _) as [Hall|_]].
    + apply sound_mark_safe_all; [done|].
      assert (Sentence.cells new_sentence ## M)
        by (apply size_inter_none; lia). set_solver.
    + apply sound_mark_mine_all; [done|]. apply size_inter_full. lia.
    + done.
Qed.

Lemma sound_infer M ai : sound M ai → sound M (infer ai).
Proof.
  intros Hs. unfold infer. apply (foldl_invariant _ (sound M)); [done|].
  intros a' x _. apply sound_infer_step.
Qed.

(** The new sentence is true when the count that comes in is the number
    of mines around the cell. *)
Lemma sound_append M ai nb :
  sound M ai →
  sound M (append_sentence ai nb
             (Z.of_nat (size (nb ∩ M)) - Z.of_nat (size (nb ∩ mines ai)))).
Proof.
  intros (Hs & Hm & Hp & Hk). unfold sound, append_sentence. simpl.
  split_and!; [done|done|done|].
  intros s [Hin| ->%list_elem_of_singleton]%elem_of_app; [by apply Hk|].
  unfold holds. simpl.
  replace ((nb ∖ safes ai ∖ moves_made ai ∖ mines ai) ∩ M)
    with ((nb ∩ M) ∖ (nb ∩ mines ai)) by set_solver.
  rewrite size_difference by set_solver.
  assert (size (nb ∩ mines ai) ≤ size (nb ∩ M))%nat
    by (apply subseteq_size; set_solver).
  lia.
Qed.

Lemma add_knowledge_Returned ai c count nb :
  accounted_mines ai = ∅ → get_neighbors ai c = Some nb →
  add_knowledge ai c count
  = Returned
      (infer (append_sentence
                (set_moves_made (mark_safe ai c)
                   (moves_made (mark_safe ai c) ∪ {[c]}))
                nb (count - Z.of_nat (size (nb ∩ mines ai))))).
Proof.
  intros Hacc Hnb.
  assert (get_neighbors (mark_safe ai c) c = Some nb) as Hn1.
  { rewrite (get_neighbors_dims ai) by apply mark_safe_dims. done. }
  unfold add_knowledge. rewrite (adjust_count_Some _ _ nb) by done.
  rewrite mark_safe_mines, length_filter_elements.
  - rewrite (get_neighbors_dims (mark_safe ai c)) by done. by rewrite Hn1.
  - destruct (mark_safe_dims ai c) as (_ & _ & ->). done.
Qed.

(** One truthful reveal keeps the agent sound. *)
Lemma add_knowledge_sound M ai c nb :
  sound M ai → accounted_mines ai = ∅ → c ∉ M →
  get_neighbors ai c = Some nb →
  ∃ ai', add_knowledge ai c (Z.of_nat (size (nb ∩ M))) = Returned ai' ∧
         sound M ai'.
Proof.
  intros Hs Hacc Hc Hnb. eexists. split; [by apply add_knowledge_Returned|].
  apply sound_infer.
  pose proof (sound_mark_safe M ai c Hs Hc) as (H1 & H2 & H3 & H4).
  rewrite <- (mark_safe_mines ai c).
  apply (sound_append M
           (set_moves_made (mark_safe ai c)
              (moves_made (mark_safe ai c) ∪ {[c]})) nb).
  split_and!; simpl; [done|done|set_solver|done].
Qed.

Lemma honest_reachable M h w ai : honest M h w ai → reachable h w ai.
Proof.
  induction 1 as [|ai c nb _ IH _ _|ai c _ IH _|ai c _ IH _|ai r c _ IH _ _].
  - apply reach_init.
  - apply (reach_op h w ai (AddKnowledge c _) IH).
  - apply (reach_op h w ai (MarkSafe c) IH).
  - apply (reach_op h w ai (MarkMine c) IH).
  - by apply reach_play.
Qed.

Lemma sound_play M ai r c :
  sound M ai → (play ai r).1 = Some c → c ∉ M → sound M (play ai r).2.
Proof.
  intros (Hs & Hm & Hp & Hk). unfold play.
  destruct (make_safe_move ai) as [c'|]; simpl.
  - intros [= ->] Hc. split_and!; simpl; [set_solver|done|set_solver|done].
  - destruct (make_random_move ai r) as [c'|]; simpl; [|done].
    intros [= ->] Hc. split_and!; simpl; [done|done|set_solver|done].
Qed.

Lemma honest_sound M h w ai : honest M h w ai → sound M ai.
Proof.
  induction 1 as [|ai c nb Hh IH Hc Hnb|ai c _ IH Hc|ai c _ IH Hc
                  |ai r c _ IH Hplay Hc].
  - split_and!; simpl; [set_solver|set_solver|set_solver|].
    intros s Hs. by apply elem_of_nil in Hs.
  - destruct (add_knowledge_sound M ai c nb IH) as (ai' & -> & Hs');
      [|done|done|done].
    apply honest_reachable, reachable_frame in Hh as (_ & _ & Hacc). done.
  - by apply sound_mark_safe.
  - by apply sound_mark_mine.
  - by eapply sound_play.
Qed.

(** X5.  An agent that has only been told the truth about the field
    with mines [M] believes only true things: its known mines are mines,
    its known safe cells and its sentences are right, every sentence has a
    count between 0 and the number of its cells, and the move
    [make_safe_move] proposes is never a mine. *)
Theorem honest_agent_sound M h w ai :
  honest M h w ai →
  mines ai ⊆ M ∧ safes ai ## M ∧
  (∀ s, s ∈ knowledge ai →
     holds M s ∧
     0 ≤ Sentence.count s ≤ Z.of_nat (size (Sentence.cells s))) ∧
  (∀ c, make_safe_move ai = Some c → c ∉ M).
Proof.
  intros (Hs & Hm & _ & Hk)%honest_sound. split_and!; [done|done| |].
  - intros s Hin. split; [by apply Hk|]. by eapply holds_count_bounds, Hk.
  - intros c Hmove. unfold make_safe_move in Hmove.
    destruct (filter _ _) as [|c0 l] eqn:Hf; [done|]. injection Hmove as <-.
    assert (c0 ∈ filter (λ c, c ∉ moves_made ai) (elements (safes ai))) as Hin
      by (rewrite Hf; apply list_elem_of_here).
    apply list_elem_of_filter in Hin as [_ Hin%elem_of_elements]. set_solver.
Qed.

Lemma honest_agent_sound_witness :
  let M : gset cell := {[(0, 2)]} in
  let ai1 := state_of (add_knowledge (init 1 3) (0, 1)
                         (Z.of_nat (size ({[(0, 0); (0, 2)]} ∩ M)))) in
  let ai2 := state_of (add_knowledge ai1 (0, 0)
                         (Z.of_nat (size ({[(0, 1)]} ∩ M)))) in
  honest M 1 3 ai2 ∧ mines ai2 = {[(0, 2)]} ∧ mines ai2 ⊆ M ∧
  safes ai2 ## M.
Proof.
  intros M ai1 ai2.
  assert (honest M 1 3 ai2) as Hh.
  { apply honest_add_knowledge; [|set_solver|by vm_compute].
    apply honest_add_knowledge; [apply honest_init|set_solver|by vm_compute]. }
  destruct (honest_agent_sound M 1 3 ai2 Hh) as (H1 & H2 & _ & _).
  split_and!; [exact Hh|by vm_compute|exact H1|exact H2].
Defined.

(** * The neighbours of a cell *)

Lemma elem_of_product' (x : cell) xs ys :
  x ∈ product xs ys ↔ x.1 ∈ xs ∧ x.2 ∈ ys.
Proof. destruct x. apply elem_of_product. Qed.

Lemma length_product_row (x : Z) (ys : list Z) :
  length (ys ≫= λ y, [(x, y)]) = length ys.
Proof.
  induction ys as [|y ys IH]; [done|]. rewrite bind_cons. simpl.
  by rewrite IH.
Qed.

Lemma length_product xs ys :
  length (product xs ys) = (length xs * length ys)%nat.
Proof.
  unfold product. induction xs as [|x xs IH]; [done|].
  rewrite bind_cons, length_app, length_product_row. unfold cell in *.
  by rewrite IH.
Qed.

Lemma NoDup_product xs ys : NoDup xs → NoDup ys → NoDup (product xs ys).
Proof.
  intros Hxs Hys. unfold product. apply NoDup_bind; [| |done].
  - intros x1 x2 [a b] _ _ (y1 & Hy1 & _)%list_elem_of_bind
      (y2 & Hy2 & _)%list_elem_of_bind.
    apply list_elem_of_singleton in Hy1, Hy2. congruence.
  - intros x _. apply NoDup_bind; [| |done].
    + intros y1 y2 [a b] _ _ Hy1%list_elem_of_singleton
        Hy2%list_elem_of_singleton. congruence.
    + intros y _. apply NoDup_singleton.
Qed.

Lemma NoDup_range a b : NoDup (range a b).
Proof. apply NoDup_seqZ. Qed.

Lemma length_range a b : length (range a b) = Z.to_nat (b - a).
Proof. apply length_seqZ. Qed.

(** X6.  For a cell of the grid [get_neighbors] returns the cells of the
    grid that differ from it and lie within one row and one column of it;
    there are at most eight of them. *)
Theorem get_neighbors_spec ai c :
  in_bounds ai c →
  ∃ nb, get_neighbors ai c = Some nb ∧
        (∀ x, x ∈ nb ↔ in_bounds ai x ∧ adjacent c x) ∧
        (size nb ≤ 8)%nat.
Proof.
  destruct c as [i j]. unfold in_bounds. simpl. intros [Hi Hj].
  unfold get_neighbors.
  set (rows := range (Z.max 0 (i - 1)) (Z.min (height ai) (i + 2))).
  set (cols := range (Z.max 0 (j - 1)) (Z.min (width ai) (j + 2))).
  assert ((i, j) ∈ (list_to_set (product rows cols) : gset cell)) as Hin.
  { rewrite elem_of_list_to_set, elem_of_product. unfold rows, cols.
    rewrite !elem_of_range. lia. }
  rewrite decide_True by done. eexists. split; [done|]. split.
  - intros [x y]. rewrite elem_of_difference, elem_of_list_to_set,
      elem_of_product, elem_of_singleton. unfold rows, cols, adjacent.
    rewrite !elem_of_range. simpl. split.
    + intros [[Hx Hy] Hne]. split_and!; try done; lia.
    + intros [[Hx Hy] (Hne & Hx' & Hy')]. split; [lia|done].
  - rewrite size_difference by set_solver. rewrite size_singleton.
    rewrite size_list_to_set
      by (apply NoDup_product; apply NoDup_range).
    rewrite length_product. unfold rows, cols. rewrite !length_range.
    assert (Z.to_nat (Z.min (height ai) (i + 2) - Z.max 0 (i - 1)) ≤ 3)%nat
      by lia.
    assert (Z.to_nat (Z.min (width ai) (j + 2) - Z.max 0 (j - 1)) ≤ 3)%nat
      by lia.
    nia.
Qed.

Lemma get_neighbors_spec_witness :
  in_bounds (init 3 2) (0, 0) ∧
  ∃ nb, get_neighbors (init 3 2) (0, 0) = Some nb ∧
        (∀ x, x ∈ nb ↔ in_bounds (init 3 2) x ∧ adjacent (0, 0) x) ∧
        (size nb ≤ 8)%nat.
Proof.
  assert (in_bounds (init 3 2) (0, 0)) as Hb by (unfold in_bounds; simpl; lia).
  split; [exact Hb|]. exact (get_neighbors_spec (init 3 2) (0, 0) Hb).
Defined.

(** X7.  [get_neighbors] raises [KeyError] exactly for the cells outside
    the grid. *)
Theorem get_neighbors_KeyError_iff ai c :
  get_neighbors ai c = None ↔ ¬ in_bounds ai c.
Proof.
  split.
  - intros Hnone Hb. apply get_neighbors_in_bounds in Hb as [nb Hnb].
    congruence.
  - apply get_neighbors_out_of_bounds.
Qed.

(** * Moves *)

Lemma make_safe_move_Some ai c :
  make_safe_move ai = Some c → c ∈ safes ai ∧ c ∉ moves_made ai.
Proof.
  unfold make_safe_move. destruct (filter _ _) as [|c0 l] eqn:Hf; [done|].
  intros [= <-].
  assert (c0 ∈ filter (λ c, c ∉ moves_made ai) (elements (safes ai))) as Hin
    by (rewrite Hf; apply list_elem_of_here).
  by apply list_elem_of_filter in Hin as [? ?%elem_of_elements].
Qed.

Lemma make_safe_move_None ai :
  make_safe_move ai = None → safes ai ⊆ moves_made ai.
Proof.
  unfold make_safe_move. destruct (filter _ _) as [|c0 l] eqn:Hf; [|done].
  intros _ x Hx. destruct (decide (x ∈ moves_made ai)) as [|Hnot]; [done|].
  assert (x ∈ filter (λ c, c ∉ moves_made ai) (elements (safes ai))) as Hin
    by (apply list_elem_of_filter; by rewrite elem_of_elements).
  rewrite Hf in Hin. by apply elem_of_nil in Hin.
Qed.

Lemma elem_of_all_cells ai c :
  c ∈ product (range 0 (height ai)) (range 0 (width ai)) ↔ in_bounds ai c.
Proof.
  rewrite elem_of_product', !elem_of_range. unfold in_bounds. lia.
Qed.

Lemma make_random_move_Some ai r c :
  make_random_move ai r = Some c →
  in_bounds ai c ∧ (c ∉ moves_made ai) ∧ (c ∉ mines ai).
Proof.
  unfold make_random_move. destruct (filter _ _) as [|c0 l] eqn:Hf; [done|].
  intros Hin%list_elem_of_lookup_2. rewrite <- Hf in Hin.
  apply list_elem_of_filter in Hin as [[? ?] ?%elem_of_all_cells]. done.
Qed.

Lemma make_random_move_None ai r :
  make_random_move ai r = None ↔
  ∀ c, in_bounds ai c → c ∈ moves_made ai ∨ c ∈ mines ai.
Proof.
  unfold make_random_move. destruct (filter _ _) as [|c0 l] eqn:Hf.
  - split; [|done]. intros _ c Hc.
    destruct (decide (c ∈ moves_made ai)) as [|Hp]; [by left|].
    destruct (decide (c ∈ mines ai)) as [|Hm]; [by right|]. exfalso.
    assert (c ∈ filter (λ c, (c ∉ moves_made ai) ∧ (c ∉ mines ai))
              (product (range 0 (height ai)) (range 0 (width ai)))) as Hin
      by (apply list_elem_of_filter; by rewrite elem_of_all_cells).
    rewrite Hf in Hin. by apply elem_of_nil in Hin.
  - assert (c0 ∈ filter (λ c, (c ∉ moves_made ai) ∧ (c ∉ mines ai))
              (product (range 0 (height ai)) (range 0 (width ai)))) as Hin
      by (rewrite Hf; apply list_elem_of_here).
    apply list_elem_of_filter in Hin as [[Hp Hm] Hb%elem_of_all_cells].
    split.
    + intros Hnone. apply lookup_ge_None in Hnone.
      pose proof (Nat.mod_upper_bound r (length (c0 :: l))) as Hlt.
      simpl in *. lia.
    + intros Hall. destruct (Hall c0 Hb); done.
Qed.

(** X8.  Whatever number the random source gives, [make_random_move]
    returns a cell of the grid that is neither played nor a known mine,
    and it returns [None] exactly when every cell of the grid is played or
    a known mine. *)
Theorem make_random_move_spec ai r :
  (make_random_move ai r = None ↔
   ∀ c, in_bounds ai c → c ∈ moves_made ai ∨ c ∈ mines ai) ∧
  (∀ c, make_random_move ai r = Some c →
        in_bounds ai c ∧ (c ∉ moves_made ai) ∧ (c ∉ mines ai)).
Proof.
  split; [apply make_random_move_None|apply make_random_move_Some].
Qed.

Lemma make_random_move_spec_witness :
  let ai := Build 1 3 {[(0, 1); (0, 0)]} {[(0, 2)]} {[(0, 1); (0, 0)]} ∅
              [Sentence.Build ∅ 0; Sentence.Build ∅ 0] in
  let ai' := Build 1 3 {[(0, 1)]} {[(0, 2)]} {[(0, 1); (0, 0)]} ∅ [] in
  make_random_move ai 5 = None ∧
  (∀ c, in_bounds ai c → c ∈ moves_made ai ∨ c ∈ mines ai) ∧
  make_random_move ai' 5 = Some (0, 0) ∧ in_bounds ai' (0, 0).
Proof.
  intros ai ai'.
  assert (make_random_move ai 5 = None) as Hnone by (by vm_compute).
  assert (make_random_move ai' 5 = Some (0, 0)) as Hsome by (by vm_compute).
  destruct (make_random_move_spec ai 5) as [Hiff _].
  destruct (make_random_move_spec ai' 5) as [_ Himp].
  split_and!; [exact Hnone|apply Hiff, Hnone|exact Hsome
              |apply (Himp (0, 0) Hsome)].
Defined.

(** X9.  The cell [play] returns was not played before and is played
    afterwards; [mines] and the sentences are untouched.  The cell is
    either an unplayed safe cell, or, when there is none, a cell of the
    grid that is neither played nor a known mine, and then [safes] is
    untouched as well.  [play] returns [None] only when every safe cell is
    played and every cell of the grid is played or a known mine, and then
    it changes nothing. *)
Theorem play_spec ai r :
  (∀ c, (play ai r).1 = Some c →
        (c ∉ moves_made ai) ∧
        moves_made (play ai r).2 = moves_made ai ∪ {[c]} ∧
        mines (play ai r).2 = mines ai ∧
        knowledge (play ai r).2 = knowledge ai ∧
        (c ∈ safes ai ∨
         (safes ai ⊆ moves_made ai ∧ safes (play ai r).2 = safes ai ∧
          in_bounds ai c ∧ c ∉ mines ai))) ∧
  ((play ai r).1 = None →
   (play ai r).2 = ai ∧ safes ai ⊆ moves_made ai ∧
   ∀ c, in_bounds ai c → c ∈ moves_made ai ∨ c ∈ mines ai).
Proof.
  unfold play. destruct (make_safe_move ai) as [c0|] eqn:Hsafe.
  - apply make_safe_move_Some in Hsafe as [Hin Hnot]. simpl.
    split; [|done]. intros c [= <-]. split_and!; try done. by left.
  - apply make_safe_move_None in Hsafe.
    destruct (make_random_move ai r) as [c0|] eqn:Hrand; simpl.
    + apply make_random_move_Some in Hrand as (Hb & Hp & Hm).
      split; [|done]. intros c [= <-]. split_and!; try done. by right.
    + split; [done|]. intros _. split_and!; [done|done|].
      by apply (make_random_move_None ai r).
Qed.

Lemma play_spec_witness :
  let ai := Build 1 3 {[(0, 1)]} {[(0, 2)]} {[(0, 1)]} ∅ [] in
  (play ai 5).1 = Some (0, 0) ∧ ((0, 0) ∉ moves_made ai) ∧
  moves_made (play ai 5).2 = moves_made ai ∪ {[(0, 0)]}.
Proof.
  intros ai.
  assert ((play ai 5).1 = Some (0, 0)) as Hplay by (by vm_compute).
  destruct (play_spec ai 5) as [Hsome _].
  destruct (Hsome (0, 0) Hplay) as (H1 & H2 & _).
  split_and!; [exact Hplay|exact H1|exact H2].
Defined.

(** * How the operations compose *)

(** X10.  The loops over sets do not depend on the order in which the set
    is visited: marking the cells of a set safe, marking them as mines and
    adjusting the count over the known mines give the same result for
    every enumeration of the set. *)
Theorem set_loops_order_irrelevant
    (ai : t) (c : cell) (count : Z) (cs : gset cell) (l : list cell) :
  l ≡ₚ elements cs →
  foldl mark_safe ai l = mark_safe_all ai cs ∧
  foldl mark_mine ai l = mark_mine_all ai cs ∧
  adjust_count ai c l count = adjust_count ai c (elements cs) count.
Proof.
  intros Hl. split_and!.
  - apply foldl_order_irrelevant; [|done]. intros. apply mark_safe_comm.
  - apply foldl_order_irrelevant; [|done]. intros. apply mark_mine_comm.
  - destruct (get_neighbors ai c) as [nb|] eqn:Hnb.
    + rewrite !(adjust_count_Some _ _ nb) by done. by rewrite Hl.
    + rewrite !adjust_count_None by done.
      destruct l, (elements cs); try done.
      * by apply Permutation_nil_cons in Hl.
      * symmetry in Hl. by apply Permutation_nil_cons in Hl.
Qed.

Lemma set_loops_order_irrelevant_witness :
  let ai := Build 3 2 {[(0, 1)]} ∅ {[(0, 1)]} ∅
              [Sentence.Build {[(0, 0); (1, 0); (1, 1)]} 1] in
  let cs : gset cell := {[(0, 0); (1, 0)]} in
  foldl mark_safe ai (reverse (elements cs)) = mark_safe_all ai cs ∧
  foldl mark_mine ai (reverse (elements cs)) = mark_mine_all ai cs.
Proof.
  intros ai cs.
  destruct (set_loops_order_irrelevant ai (0, 0) 0 cs (reverse (elements cs))
              (reverse_Permutation _)) as (H1 & H2 & _).
  split; [exact H1|exact H2].
Defined.

Lemma mark_safe_all_length ai cs :
  length (knowledge (mark_safe_all ai cs)) = length (knowledge ai).
Proof.
  apply (foldl_invariant mark_safe
           (λ a, length (knowledge a) = length (knowledge ai))); [done|].
  intros a' x _ <-. by rewrite mark_safe_knowledge, length_fmap.
Qed.

Lemma mark_mine_all_length ai cs :
  length (knowledge (mark_mine_all ai cs)) = length (knowledge ai).
Proof.
  apply (foldl_invariant mark_mine
           (λ a, length (knowledge a) = length (knowledge ai))); [done|].
  intros a' x _ <-. by rewrite mark_mine_knowledge, length_fmap.
Qed.

Lemma infer_length ai : length (knowledge (infer ai)) = length (knowledge ai).
Proof.
  unfold infer.
  apply (foldl_invariant _
           (λ a, length (knowledge a) = length (knowledge ai))); [done|].
  intros a' k _ Ha'.
  destruct (infer_step_cases (length (knowledge ai) - 1) a' k)
    as [->|(s & cs & _ & _ & [->| ->])];
    [done|by rewrite mark_safe_all_length|by rewrite mark_mine_all_length].
Qed.

(** X11.  No operation ever drops a sentence: the mark operations keep
    the length of the knowledge list, and [add_knowledge] makes it longer
    by exactly one when it returns and keeps it when it raises. *)
Theorem knowledge_length ai c count :
  length (knowledge (mark_safe ai c)) = length (knowledge ai) ∧
  length (knowledge (mark_mine ai c)) = length (knowledge ai) ∧
  length (knowledge (state_of (add_knowledge ai c count)))
  = match add_knowledge ai c count with
    | Returned _ => S (length (knowledge ai))
    | RaisedKeyError _ => length (knowledge ai)
    end.
Proof.
  assert (length (knowledge (mark_safe ai c)) = length (knowledge ai)) as Hs
    by (by rewrite mark_safe_knowledge, length_fmap).
  split_and!; [done|by rewrite mark_mine_knowledge, length_fmap|].
  destruct (add_knowledge_cases ai c count)
    as [[_ [-> | ->]]|(nb & count' & _ & ->)]; simpl; [done|done|].
  rewrite infer_length.
  change (knowledge (append_sentence _ nb count'))
    with (knowledge (mark_safe ai c)
          ++ [Sentence.init
                (nb ∖ safes (mark_safe ai c)
                    ∖ (moves_made (mark_safe ai c) ∪ {[c]})
                    ∖ mines (mark_safe ai c)) count']).
  rewrite length_app, Hs. simpl. lia.
Qed.

(** * The revealed cell stays recorded *)

Lemma settled_mark_safe c ai x :
  settled c ai → x ≠ c → settled c (mark_safe ai x).
Proof.
  intros (Hs & Hp & Hk) Hx. unfold settled.
  rewrite mark_safe_safes, mark_safe_moves_made, mark_safe_knowledge.
  split_and!; [set_solver|set_solver|].
  intros s' (s & -> & Hin)%list_elem_of_fmap.
  rewrite Sentence_mark_safe_cells. specialize (Hk s Hin). set_solver.
Qed.

Lemma settled_mark_mine c ai x : settled c ai → settled c (mark_mine ai x).
Proof.
  intros (Hs & Hp & Hk). unfold settled.
  rewrite mark_mine_safes, mark_mine_moves_made, mark_mine_knowledge.
  split_and!; [done|done|].
  intros s' (s & -> & Hin)%list_elem_of_fmap.
  rewrite Sentence_mark_mine_cells. specialize (Hk s Hin). set_solver.
Qed.

Lemma settled_infer_step c n ai k :
  settled c ai → settled c (infer_step n ai k).
Proof.
  intros Hc.
  destruct (infer_step_cases n ai k) as [->|(s & cs & Hs & Hcs & [->| ->])];
    [done| |].
  - apply (foldl_invariant mark_safe (settled c)); [done|].
    intros a' x Hx%elem_of_elements Ha'. apply settled_mark_safe; [done|].
    intros ->. destruct Hc as (_ & _ & Hk). specialize (Hk s Hs). set_solver.
  - apply (foldl_invariant mark_mine (settled c)); [done|].
    intros a' x _ Ha'. by apply settled_mark_mine.
Qed.

(** X12.  When [add_knowledge] returns, the revealed cell is in [safes]
    and in [moves_made] and no sentence of the list mentions it, whatever
    the state before and whatever the inference pass marked. *)
Theorem add_knowledge_records_cell ai c count ai' :
  add_knowledge ai c count = Returned ai' →
  c ∈ safes ai' ∧ c ∈ moves_made ai' ∧
  ∀ s, s ∈ knowledge ai' → c ∉ Sentence.cells s.
Proof.
  intros Hret.
  destruct (add_knowledge_cases ai c count)
    as [[_ [Hr | Hr]]|(nb & count' & _ & Hr)]; try congruence.
  rewrite Hret in Hr. injection Hr as ->.
  unfold infer. apply (foldl_invariant _ (settled c)).
  - unfold settled, append_sentence, set_knowledge, set_moves_made.
    cbn [safes moves_made knowledge mines].
    rewrite mark_safe_safes, mark_safe_knowledge.
    split_and!; [set_solver|set_solver|].
    intros s [(s0 & -> & _)%list_elem_of_fmap
             | ->%list_elem_of_singleton]%elem_of_app.
    + rewrite Sentence_mark_safe_cells. set_solver.
    + simpl. set_solver.
  - intros a' k _. apply settled_infer_step.
Qed.

Lemma add_knowledge_records_cell_witness :
  let ai := Build 3 2 {[(0, 1)]} ∅ {[(0, 1)]} ∅
              [Sentence.Build {[(0, 0); (1, 0); (1, 1)]} 1] in
  ∃ ai', add_knowledge ai (0, 0) 1 = Returned ai' ∧
         (0, 0) ∈ safes ai' ∧ (0, 0) ∈ moves_made ai'.
Proof.
  intros ai.
  destruct (add_knowledge_returns ai (0, 0) 1) as [ai' Hret];
    [unfold in_bounds; simpl; lia|].
  exists ai'. split; [exact Hret|].
  destruct (add_knowledge_records_cell ai (0, 0) 1 ai' Hret) as (H1 & H2 & _).
  split; [exact H1|exact H2].
Defined.

(** * The field: indexing *)

Lemma getitem_in_range {A : Type} (l : list A) i :
  0 ≤ i < Z.of_nat (length l) → getitem l i = l !! Z.to_nat i.
Proof. intros Hi. unfold getitem. by rewrite decide_True by lia. Qed.

Lemma getitem_negative {A : Type} (l : list A) i :
  - Z.of_nat (length l) ≤ i < 0 →
  getitem l i = getitem l (Z.of_nat (length l) + i).
Proof.
  intros Hi. unfold getitem. rewrite decide_False, decide_True by lia.
  by rewrite decide_True by lia.
Qed.

Lemma getitem_is_Some {A : Type} (l : list A) i :
  is_Some (getitem l i) ↔ - Z.of_nat (length l) ≤ i < Z.of_nat (length l).
Proof.
  unfold getitem. destruct (decide (0 ≤ i)).
  - rewrite lookup_lt_is_Some. lia.
  - destruct (decide _).
    + rewrite lookup_lt_is_Some. lia.
    + split; [by intros [? ?]|lia].
Qed.

Lemma shaped_row h w b i :
  Minesweeper.shaped h w b → 0 ≤ i < h →
  ∃ row, b !! Z.to_nat i = Some row ∧ length row = Z.to_nat w.
Proof.
  intros [Hlen Hrows] Hi.
  destruct (lookup_lt_is_Some_2 b (Z.to_nat i)) as [row Hrow]; [lia|].
  exists row. split; [done|]. by eapply Hrows, list_elem_of_lookup_2.
Qed.

Lemma board_get_in_range h w b i j :
  Minesweeper.shaped h w b → 0 ≤ i < h → 0 ≤ j < w →
  ∃ row v, b !! Z.to_nat i = Some row ∧ row !! Z.to_nat j = Some v ∧
           Minesweeper.board_get b i j = Some v.
Proof.
  intros Hsh Hi Hj. destruct (shaped_row h w b i Hsh Hi) as (row & Hrow & Hlen).
  destruct (lookup_lt_is_Some_2 row (Z.to_nat j)) as [v Hv]; [lia|].
  exists row, v. split_and!; [done|done|]. unfold Minesweeper.board_get.
  destruct Hsh as [Hb _].
  rewrite getitem_in_range, Hrow by lia. simpl.
  by rewrite getitem_in_range, Hv by lia.
Qed.

(** The board lookup succeeds exactly on the indices Python accepts, and a
    negative index counts from the end. *)
Lemma board_get_is_Some h w b i j :
  Minesweeper.shaped h w b →
  is_Some (Minesweeper.board_get b i j) ↔ - h ≤ i < h ∧ - w ≤ j < w.
Proof.
  intros [Hlen Hrows]. unfold Minesweeper.board_get.
  destruct (getitem b i) as [row|] eqn:Hrow; simpl.
  - assert (is_Some (getitem b i)) as Hi%getitem_is_Some by (by eexists).
    assert (row ∈ b) as Hin.
    { unfold getitem in Hrow. repeat destruct (decide _); try done;
        by eapply list_elem_of_lookup_2. }
    rewrite getitem_is_Some, (Hrows row Hin). lia.
  - assert (¬ is_Some (getitem b i)) as Hi by (rewrite Hrow; by intros [? ?]).
    rewrite getitem_is_Some in Hi. split; [by intros [? ?]|lia].
Qed.

Lemma board_get_wrap h w b i j :
  Minesweeper.shaped h w b → - h ≤ i < h → - w ≤ j < w →
  Minesweeper.board_get b i j = Minesweeper.board_get b (i `mod` h) (j `mod` w).
Proof.
  intros [Hlen Hrows] Hi Hj. unfold Minesweeper.board_get.
  assert (getitem b i = getitem b (i `mod` h)) as ->.
  { destruct (decide (0 ≤ i)).
    - by rewrite Z.mod_small by lia.
    - rewrite getitem_negative by lia. f_equal.
      rewrite <- (Z.mod_add i 1 h), Z.mod_small by lia. lia. }
  destruct (getitem b (i `mod` h)) as [row|] eqn:Hrow; [simpl|done].
  assert (row ∈ b) as Hin.
  { unfold getitem in Hrow. repeat destruct (decide _); try done;
      by eapply list_elem_of_lookup_2. }
  apply Hrows in Hin. destruct (decide (0 ≤ j)).
  - by rewrite Z.mod_small by lia.
  - rewrite getitem_negative by lia. f_equal.
    rewrite <- (Z.mod_add j 1 w), Z.mod_small by lia. lia.
Qed.

(** X13.  On a field as [__init__] builds it, [is_mine] answers for the
    indices [-height <= i < height], [-width <= j < width], a negative
    index counting from the end of the board as Python lists do, and tells
    whether the cell it reaches is in [mines]; for every other pair it
    raises [IndexError]. *)
Theorem is_mine_spec g i j :
  Minesweeper.well_formed g →
  (- Minesweeper.height g ≤ i < Minesweeper.height g ∧
   - Minesweeper.width g ≤ j < Minesweeper.width g →
   Minesweeper.is_mine g (i, j)
   = Some (bool_decide ((i `mod` Minesweeper.height g,
                         j `mod` Minesweeper.width g) ∈ Minesweeper.mines g))) ∧
  (¬ (- Minesweeper.height g ≤ i < Minesweeper.height g ∧
      - Minesweeper.width g ≤ j < Minesweeper.width g) →
   Minesweeper.is_mine g (i, j) = None).
Proof.
  intros [Hsh Hag]. split.
  - intros [Hi Hj]. unfold Minesweeper.is_mine.
    rewrite (board_get_wrap _ _ _ _ _ Hsh Hi Hj).
    set (i' := i `mod` Minesweeper.height g).
    set (j' := j `mod` Minesweeper.width g).
    assert (0 ≤ i' < Minesweeper.height g) as Hi'
      by (apply Z.mod_pos_bound; lia).
    assert (0 ≤ j' < Minesweeper.width g) as Hj'
      by (apply Z.mod_pos_bound; lia).
    destruct (board_get_in_range _ _ _ i' j' Hsh Hi' Hj')
      as (row & v & _ & _ & Hv).
    rewrite Hv. f_equal. specialize (Hag (i', j')).
    unfold Minesweeper.is_mine, Minesweeper.in_bounds in Hag. simpl in Hag.
    rewrite Hv in Hag. destruct v.
    + rewrite bool_decide_eq_true_2; [done|]. by apply Hag.
    + rewrite bool_decide_eq_false_2; [done|]. intros [_ [=]]%Hag.
  - intros Hout. unfold Minesweeper.is_mine.
    destruct (Minesweeper.board_get _ i j) eqn:Hget; [|done].
    exfalso. apply Hout. apply (board_get_is_Some _ _ _ _ _ Hsh).
    by eexists.
Qed.

(** * The field: counting the mines around a cell *)

Lemma get_neighbors_elem ai c nb :
  get_neighbors ai c = Some nb →
  ∀ x, x ∈ nb ↔ in_bounds ai x ∧ adjacent c x.
Proof.
  destruct c as [i j]. unfold get_neighbors.
  destruct (decide _) as [Hin|]; [|done]. intros [= <-] [x y].
  rewrite elem_of_list_to_set, elem_of_product, !elem_of_range in Hin.
  rewrite elem_of_difference, elem_of_list_to_set, elem_of_product,
    elem_of_singleton, !elem_of_range.
  unfold in_bounds, adjacent. simpl. split.
  - intros [[Hx Hy] Hne]. split_and!; try done; lia.
  - intros [[Hx Hy] (Hne & Hx' & Hy')]. split; [lia|done].
Qed.

(** The loops of [nearby_mines] count the visited cells that differ from
    [c], are on the field and carry a flag. *)
Lemma nearby_mines_fold g c L n :
  Minesweeper.shaped (Minesweeper.height g) (Minesweeper.width g)
    (Minesweeper.board g) →
  foldl (Minesweeper.nearby_step g c) (Some n) L
  = Some (n + Z.of_nat (length (filter
       (λ x, x ≠ c ∧
             (0 ≤ x.1 < Minesweeper.height g ∧
              0 ≤ x.2 < Minesweeper.width g) ∧
             Minesweeper.board_get (Minesweeper.board g) x.1 x.2 = Some true)
       L))).
Proof.
  intros Hsh. revert n. induction L as [|x L IH]; intros n; simpl.
  - f_equal. lia.
  - rewrite filter_cons. destruct (decide (x = c)) as [->|Hne].
    + rewrite decide_False by (by intros [? _]). apply IH.
    + destruct (decide (0 ≤ x.1 < Minesweeper.height g ∧
                        0 ≤ x.2 < Minesweeper.width g)) as [[Hx Hy]|Hout].
      * destruct (board_get_in_range _ _ _ _ _ Hsh Hx Hy)
          as (row & v & _ & _ & ->).
        simpl. destruct v.
        -- rewrite decide_True by done. rewrite IH. simpl. f_equal. lia.
        -- rewrite decide_False by (by intros (_ & _ & [=])). apply IH.
      * rewrite decide_False by (by intros (_ & ? & _)). apply IH.
Qed.

Lemma nearby_mines_filter g c :
  Minesweeper.well_formed g →
  Minesweeper.nearby_mines g c
  = Some (Z.of_nat (size (filter (adjacent c) (Minesweeper.mines g)))).
Proof.
  intros [Hsh Hag]. unfold Minesweeper.nearby_mines.
  rewrite nearby_mines_fold by done. f_equal. rewrite Z.add_0_l. f_equal.
  unfold size, set_size. simpl. apply Permutation_length.
  apply NoDup_Permutation.
  - apply NoDup_filter, NoDup_product; apply NoDup_range.
  - apply NoDup_elements.
  - intros x. rewrite list_elem_of_filter, elem_of_elements, elem_of_filter,
      elem_of_product', !elem_of_range, Hag.
    unfold adjacent, Minesweeper.in_bounds, Minesweeper.is_mine.
    destruct x as [a b], c as [i j]. simpl. split.
    + intros ((Hne & Hb & Hget) & Ha & Hb'). split_and!; try done; lia.
    + intros ((Hne & Ha & Hb') & Hb & Hget). split_and!; try done; lia.
Qed.

Lemma size_adjacent_le_8 (c : cell) (X : gset cell) :
  (size (filter (adjacent c) X) ≤ 8)%nat.
Proof.
  set (L := product (range (c.1 - 1) (c.1 + 2)) (range (c.2 - 1) (c.2 + 2))).
  assert (filter (adjacent c) X ⊆ list_to_set L ∖ {[c]}) as Hsub.
  { intros x [(Hne & H1 & H2) _]%elem_of_filter.
    rewrite elem_of_difference, elem_of_list_to_set, elem_of_singleton.
    split; [|done]. unfold L. rewrite elem_of_product', !elem_of_range. lia. }
  apply subseteq_size in Hsub.
  assert (c ∈ (list_to_set L : gset cell)) as Hc.
  { rewrite elem_of_list_to_set. unfold L.
    rewrite elem_of_product', !elem_of_range. lia. }
  rewrite size_difference, size_singleton in Hsub by set_solver.
  rewrite size_list_to_set in Hsub
    by (apply NoDup_product; apply NoDup_range).
  unfold L in Hsub. rewrite length_product, !length_range in Hsub.
  replace (c.1 + 2 - (c.1 - 1)) with 3 in Hsub by lia.
  replace (c.2 + 2 - (c.2 - 1)) with 3 in Hsub by lia.
  simpl in Hsub. lia.
Qed.

(** * The field: construction *)

Lemma board_set_spec h w b i j :
  Minesweeper.shaped h w b → 0 ≤ i < h → 0 ≤ j < w →
  ∃ b', Minesweeper.board_set b i j = Some b' ∧
        Minesweeper.shaped h w b' ∧
        ∀ x y, 0 ≤ x < h → 0 ≤ y < w →
          Minesweeper.board_get b' x y
          = if decide (x = i ∧ y = j) then Some true
            else Minesweeper.board_get b x y.
Proof.
  intros Hsh Hi Hj. pose proof Hsh as [Hlen Hrows].
  destruct (shaped_row h w b i Hsh Hi) as (row & Hrow & Hrlen).
  set (row' := <[Z.to_nat j := true]> row).
  set (b' := <[Z.to_nat i := row']> b).
  assert (Minesweeper.shaped h w b') as Hsh'.
  { split; [unfold b'; by rewrite length_insert|].
    intros r [k Hk]%list_elem_of_lookup. unfold b' in Hk.
    rewrite list_lookup_insert in Hk. destruct (decide _).
    - injection Hk as <-. unfold row'. by rewrite length_insert.
    - by eapply Hrows, list_elem_of_lookup_2. }
  exists b'. split_and!; [|done|].
  - unfold Minesweeper.board_set. rewrite getitem_in_range, Hrow by lia.
    simpl. unfold setitem.
    destruct (decide (0 ≤ j)); [|lia]. destruct (decide (0 ≤ i)); [|lia].
    rewrite decide_True by lia. simpl. by rewrite decide_True by lia.
  - intros x y Hx Hy.
    destruct (board_get_in_range h w b' x y Hsh' Hx Hy)
      as (r' & v' & Hr' & Hv' & ->).
    destruct (board_get_in_range h w b x y Hsh Hx Hy)
      as (r & v & Hr & Hv & ->).
    unfold b' in Hr'. rewrite list_lookup_insert in Hr'.
    destruct (decide (Z.to_nat i = Z.to_nat x ∧ _)) as [[Heq _]|Hne].
    + assert (x = i) as -> by lia. injection Hr' as <-.
      assert (r = row) as -> by congruence.
      unfold row' in Hv'. rewrite list_lookup_insert in Hv'.
      destruct (decide (Z.to_nat j = Z.to_nat y ∧ _)) as [[Heq' _]|Hne'].
      * assert (y = j) as -> by lia. by rewrite decide_True.
      * rewrite decide_False by lia. congruence.
    + rewrite decide_False by lia. congruence.
Qed.

Lemma empty_board_shaped h w :
  Minesweeper.shaped h w (Minesweeper.empty_board h w).
Proof.
  unfold Minesweeper.empty_board. split; [by rewrite length_replicate|].
  intros row ->%elem_of_replicate_inv. by rewrite length_replicate.
Qed.

Lemma empty_board_get h w x y :
  0 ≤ x < h → 0 ≤ y < w →
  Minesweeper.board_get (Minesweeper.empty_board h w) x y = Some false.
Proof.
  intros Hx Hy.
  destruct (board_get_in_range h w _ x y (empty_board_shaped h w) Hx Hy)
    as (row & v & Hrow & Hv & ->).
  apply lookup_replicate in Hrow as [-> _].
  by apply lookup_replicate in Hv as [-> _].
Qed.

(** The mines placed so far are on the field. *)
Lemma placed_size_bound (h w : Z) (ms : gset cell) :
  (∀ x y, (x, y) ∈ ms → 0 ≤ x < h ∧ 0 ≤ y < w) →
  (size ms ≤ Z.to_nat h * Z.to_nat w)%nat.
Proof.
  intros Hin.
  assert (ms ⊆ list_to_set (product (range 0 h) (range 0 w))) as Hsub.
  { intros [x y] Hxy%Hin.
    rewrite elem_of_list_to_set, elem_of_product, !elem_of_range. lia. }
  apply subseteq_size in Hsub.
  rewrite size_list_to_set in Hsub
    by (apply NoDup_product; apply NoDup_range).
  rewrite length_product, !length_range in Hsub.
  by rewrite !Z.sub_0_r in Hsub.
Qed.

(** What the loop of [__init__] keeps: the shape of the board and the
    agreement of the flags with the set of mines. *)
Lemma place_mines_inv h w target draws :
  ∀ ms b,
    Minesweeper.shaped h w b →
    (∀ x y, (x, y) ∈ ms ↔
            (0 ≤ x < h ∧ 0 ≤ y < w) ∧
            Minesweeper.board_get b x y = Some true) →
    match Minesweeper.place_mines draws h w target ms b with
    | Minesweeper.Ok (ms', b') =>
        Minesweeper.shaped h w b' ∧
        (∀ x y, (x, y) ∈ ms' ↔
                (0 ≤ x < h ∧ 0 ≤ y < w) ∧
                Minesweeper.board_get b' x y = Some true) ∧
        Z.of_nat (size ms') = target
    | Minesweeper.RaisedValueError => target ≠ 0 ∧ (h ≤ 0 ∨ w ≤ 0)
    | Minesweeper.RaisedIndexError => False
    | Minesweeper.Looping => 0 < h ∧ 0 < w
    end.
Proof.
  induction draws as [|[r1 r2] draws IH]; intros ms b Hsh Hag.
  - simpl. destruct (decide _) as [Hsz|Hsz]; [done|].
    assert (size ms ≤ Z.to_nat h * Z.to_nat w)%nat as Hbound
      by (apply placed_size_bound; intros x y Hxy; by apply Hag).
    destruct (decide (h ≤ 0)).
    { split; [|by left]. intros ->.
      replace (Z.to_nat h) with 0%nat in Hbound by lia. lia. }
    destruct (decide (w ≤ 0)).
    { split; [|by right]. intros ->.
      replace (Z.to_nat w) with 0%nat in Hbound by lia. lia. }
    lia.
  - simpl. destruct (decide _) as [Hsz|Hsz]; [done|].
    assert (size ms ≤ Z.to_nat h * Z.to_nat w)%nat as Hbound
      by (apply placed_size_bound; intros x y Hxy; by apply Hag).
    destruct (decide (h ≤ 0)).
    { split; [|by left]. intros ->.
      replace (Z.to_nat h) with 0%nat in Hbound by lia. lia. }
    destruct (decide (w ≤ 0)).
    { split; [|by right]. intros ->.
      replace (Z.to_nat w) with 0%nat in Hbound by lia. lia. }
    set (i := Z.of_nat r1 `mod` h). set (j := Z.of_nat r2 `mod` w).
    assert (0 ≤ i < h) as Hi by (apply Z.mod_pos_bound; lia).
    assert (0 ≤ j < w) as Hj by (apply Z.mod_pos_bound; lia).
    destruct (board_get_in_range h w b i j Hsh Hi Hj)
      as (row & v & _ & _ & Hv).
    rewrite Hv. destruct v; [by apply IH|].
    destruct (board_set_spec h w b i j Hsh Hi Hj) as (b' & -> & Hsh' & Hget).
    apply IH; [done|].
    intros x y. rewrite elem_of_union, elem_of_singleton, Hag. split.
    + intros [[Hb Ht]|[= -> ->]].
      * split; [done|]. rewrite Hget by lia. destruct (decide _); done.
      * split; [done|]. rewrite Hget by lia. by rewrite decide_True.
    + intros [Hb Ht]. rewrite Hget in Ht by lia.
      destruct (decide (x = i ∧ y = j)) as [[-> ->]|]; [by right|by left].
Qed.

Lemma init_Ok_well_formed h w target draws g :
  Minesweeper.init h w target draws = Minesweeper.Ok g →
  Minesweeper.well_formed g ∧
  Minesweeper.height g = h ∧ Minesweeper.width g = w ∧
  Z.of_nat (size (Minesweeper.mines g)) = target ∧
  Minesweeper.mines_found g = ∅.
Proof.
  unfold Minesweeper.init.
  pose proof (place_mines_inv h w target draws ∅
                (Minesweeper.empty_board h w) (empty_board_shaped h w)) as Hinv.
  destruct (Minesweeper.place_mines draws h w target ∅ _)
    as [[ms b]| | |]; try done.
  intros [= <-]. destruct Hinv as (Hsh & Hag & Hsz).
  - intros x y. split; [set_solver|]. intros [[Hx Hy] Hget].
    rewrite empty_board_get in Hget by done. done.
  - split_and!; try done. split; [done|]. intros [x y]. apply Hag.
Qed.

(** X14.  When [__init__] returns, the board has [height] rows of
    [width] flags, a flag is set exactly at the cells of [mines], which
    are all on the field, there are exactly as many mines as were asked
    for, no mine is found yet, and the game counts as won only if it has
    no mine at all. *)
Theorem Minesweeper_init_spec h w target draws g :
  Minesweeper.init h w target draws = Minesweeper.Ok g →
  Minesweeper.well_formed g ∧
  Minesweeper.height g = h ∧ Minesweeper.width g = w ∧
  Z.of_nat (size (Minesweeper.mines g)) = target ∧
  (∀ c, c ∈ Minesweeper.mines g → Minesweeper.in_bounds g c) ∧
  Minesweeper.mines_found g = ∅ ∧
  (Minesweeper.won g = true ↔ target = 0).
Proof.
  intros (Hwf & Hh & Hw & Hsz & Hfound)%init_Ok_well_formed.
  split_and!; try done.
  - intros c Hc. by apply Hwf in Hc as [? _].
  - unfold Minesweeper.won. rewrite bool_decide_eq_true, Hfound. split.
    + intros Heq. rewrite <- Heq, size_empty in Hsz. lia.
    + intros ->. symmetry. apply leibniz_equiv, size_empty_inv. lia.
Qed.

Lemma Minesweeper_init_spec_witness :
  let g := Minesweeper.Build 2 3 {[(1, 1); (0, 2)]}
             [[false; false; true]; [false; true; false]] ∅ in
  Minesweeper.init 2 3 2 [(1, 1); (3, 4); (0, 5)]%nat = Minesweeper.Ok g ∧
  Minesweeper.well_formed g ∧
  Z.of_nat (size (Minesweeper.mines g)) = 2.
Proof.
  intros g.
  assert (Minesweeper.init 2 3 2 [(1, 1); (3, 4); (0, 5)]%nat
          = Minesweeper.Ok g) as Hinit by (by vm_compute).
  destruct (Minesweeper_init_spec 2 3 2 _ g Hinit) as (H1 & _ & _ & H2 & _).
  split_and!; [exact Hinit|exact H1|exact H2].
Defined.

Lemma place_mines_never_returns h w target draws :
  0 < h → 0 < w → target < 0 ∨ h * w < target →
  ∀ ms b,
    Minesweeper.shaped h w b →
    (∀ x y, (x, y) ∈ ms ↔
            (0 ≤ x < h ∧ 0 ≤ y < w) ∧
            Minesweeper.board_get b x y = Some true) →
    Minesweeper.place_mines draws h w target ms b = Minesweeper.Looping.
Proof.
  intros Hh Hw Htarget ms b Hsh Hag.
  pose proof (place_mines_inv h w target draws ms b Hsh Hag) as Hinv.
  destruct (Minesweeper.place_mines draws h w target ms b)
    as [[ms' b']| | |]; [|lia|done|done].
  destruct Hinv as (_ & Hag' & Hsz). exfalso.
  assert (size ms' ≤ Z.to_nat h * Z.to_nat w)%nat as Hbound
    by (apply placed_size_bound; intros x y Hxy; by apply Hag').
  nia.
Qed.

(** X15.  How the constructor can fail.  With no mine asked for it
    returns the empty field at once, whatever the sizes.  Asked for a mine
    on a field with no row or no column it raises the [ValueError] of
    [random.randrange].  On a field with cells, asked for a negative
    number of mines or for more mines than cells, its loop never ends,
    however many random numbers it draws.  It never raises
    [IndexError]. *)
Theorem Minesweeper_init_failure h w target draws :
  (target = 0 →
   Minesweeper.init h w target draws
   = Minesweeper.Ok
       (Minesweeper.Build h w ∅ (Minesweeper.empty_board h w) ∅)) ∧
  (target ≠ 0 → h ≤ 0 ∨ w ≤ 0 →
   Minesweeper.init h w target draws = Minesweeper.RaisedValueError) ∧
  (0 < h → 0 < w → target < 0 ∨ h * w < target →
   Minesweeper.init h w target draws = Minesweeper.Looping) ∧
  Minesweeper.init h w target draws ≠ Minesweeper.RaisedIndexError.
Proof.
  split_and!.
  - intros ->. unfold Minesweeper.init. by destruct draws as [|[??] ?].
  - intros Ht Hhw. unfold Minesweeper.init.
    assert (Minesweeper.place_mines draws h w target ∅
              (Minesweeper.empty_board h w) = Minesweeper.RaisedValueError)
      as ->; [|done].
    assert (Z.of_nat (size (∅ : gset cell)) ≠ target) as Hsz
      by (rewrite size_empty; simpl; lia).
    destruct draws as [|[??] ?]; simpl;
      destruct (decide (Z.of_nat _ = target)); try done;
      destruct (decide (h ≤ 0)); try done;
      destruct (decide (w ≤ 0)); try done; lia.
  - intros Hh Hw Ht. unfold Minesweeper.init.
    rewrite place_mines_never_returns; try done.
    + apply empty_board_shaped.
    + intros x y. split; [set_solver|]. intros [[Hx Hy] Hget].
      rewrite empty_board_get in Hget by done. done.
  - unfold Minesweeper.init.
    pose proof (place_mines_inv h w target draws ∅
                  (Minesweeper.empty_board h w) (empty_board_shaped h w))
      as Hinv.
    destruct (Minesweeper.place_mines draws h w target ∅ _)
      as [[ms b]| | |]; try done.
    exfalso. apply Hinv. intros x y. split; [set_solver|].
    intros [[Hx Hy] Hget]. rewrite empty_board_get in Hget by done. done.
Qed.

Lemma Minesweeper_init_failure_witness :
  Minesweeper.init 0 3 1 [(1, 1)]%nat = Minesweeper.RaisedValueError ∧
  Minesweeper.init 2 3 7 [(1, 1); (3, 4); (0, 5)]%nat = Minesweeper.Looping ∧
  Minesweeper.init 0 0 0 []
  = Minesweeper.Ok (Minesweeper.Build 0 0 ∅ (Minesweeper.empty_board 0 0) ∅).
Proof.
  destruct (Minesweeper_init_failure 0 3 1 [(1, 1)]%nat) as (_ & H1 & _ & _).
  destruct (Minesweeper_init_failure 2 3 7 [(1, 1); (3, 4); (0, 5)]%nat)
    as (_ & _ & H2 & _).
  destruct (Minesweeper_init_failure 0 0 0 []) as (H3 & _ & _ & _).
  split_and!; [apply H1; lia|apply H2; lia|apply H3; reflexivity].
Defined.

Lemma is_mine_spec_witness :
  let g := Minesweeper.Build 2 3 {[(1, 1); (0, 2)]}
             [[false; false; true]; [false; true; false]] ∅ in
  Minesweeper.well_formed g ∧
  Minesweeper.is_mine g (-1, -2) = Some true ∧
  Minesweeper.is_mine g (-1, -2)
  = Some (bool_decide (((-1) `mod` 2, (-2) `mod` 3) ∈ Minesweeper.mines g)) ∧
  Minesweeper.is_mine g (2, 0) = None.
Proof.
  intros g.
  assert (Minesweeper.well_formed g) as Hwf.
  { apply (init_Ok_well_formed 2 3 2 [(1, 1); (3, 4); (0, 5)]%nat).
    by vm_compute. }
  destruct (is_mine_spec g (-1) (-2) Hwf) as [H1 _].
  destruct (is_mine_spec g 2 0 Hwf) as [_ H2].
  split_and!; [exact Hwf|by vm_compute|apply H1; simpl; lia
              |apply H2; simpl; lia].
Defined.

(** * The field and the agent together *)

Lemma nearby_mines_neighbors g ai c nb :
  Minesweeper.well_formed g →
  height ai = Minesweeper.height g → width ai = Minesweeper.width g →
  get_neighbors ai c = Some nb →
  Minesweeper.nearby_mines g c
  = Some (Z.of_nat (size (nb ∩ Minesweeper.mines g))).
Proof.
  intros Hwf Hh Hw Hnb. rewrite nearby_mines_filter by done.
  do 3 f_equal. apply set_eq. intros x.
  rewrite elem_of_filter, elem_of_intersection,
    (get_neighbors_elem ai c nb Hnb).
  destruct Hwf as [_ Hag]. split; [|naive_solver].
  intros [Hadj Hx]. split_and!; try done.
  apply Hag in Hx as [Hb _]. unfold in_bounds, Minesweeper.in_bounds in *.
  by rewrite Hh, Hw.
Qed.

(** X16.  On a field as [__init__] builds it, [nearby_mines] never
    raises, for cells off the field either; it returns the number of mines
    among the up to eight cells around the cell, so at most 8; and for a
    cell of the grid this is the number of mines among the cells
    [get_neighbors] of an agent of the same size returns. *)
Theorem nearby_mines_spec g c :
  Minesweeper.well_formed g →
  Minesweeper.nearby_mines g c
  = Some (Z.of_nat (size (filter (adjacent c) (Minesweeper.mines g)))) ∧
  (size (filter (adjacent c) (Minesweeper.mines g)) ≤ 8)%nat ∧
  ∀ ai nb,
    height ai = Minesweeper.height g → width ai = Minesweeper.width g →
    get_neighbors ai c = Some nb →
    Minesweeper.nearby_mines g c
    = Some (Z.of_nat (size (nb ∩ Minesweeper.mines g))).
Proof.
  intros Hwf. split_and!.
  - by apply nearby_mines_filter.
  - apply size_adjacent_le_8.
  - intros ai nb. by apply nearby_mines_neighbors.
Qed.

Lemma nearby_mines_spec_witness :
  let g := Minesweeper.Build 2 3 {[(1, 1); (0, 2)]}
             [[false; false; true]; [false; true; false]] ∅ in
  Minesweeper.well_formed g ∧
  Minesweeper.nearby_mines g (0, 1) = Some 2 ∧
  Minesweeper.nearby_mines g (0, 1)
  = Some (Z.of_nat (size (filter (adjacent (0, 1)) (Minesweeper.mines g)))) ∧
  Minesweeper.nearby_mines g (-1, 3) = Some 1.
Proof.
  intros g.
  assert (Minesweeper.well_formed g) as Hwf.
  { apply (init_Ok_well_formed 2 3 2 [(1, 1); (3, 4); (0, 5)]%nat).
    by vm_compute. }
  destruct (nearby_mines_spec g (0, 1) Hwf) as (H1 & _ & _).
  split_and!; [exact Hwf|by vm_compute|exact H1|by vm_compute].
Defined.

(** X17.  One turn of the game keeps the agent sound.  On a field as
    [__init__] builds it and an agent of the same size whose beliefs are
    all true of the field, revealing a cell of the grid that [is_mine]
    reports free, with the count [nearby_mines] gives for it, makes
    [add_knowledge] return, and the beliefs of the agent are still all
    true of the field. *)
Theorem reveal_keeps_sound g ai c :
  Minesweeper.well_formed g →
  height ai = Minesweeper.height g → width ai = Minesweeper.width g →
  accounted_mines ai = ∅ →
  sound (Minesweeper.mines g) ai →
  in_bounds ai c → Minesweeper.is_mine g c = Some false →
  ∃ n ai', Minesweeper.nearby_mines g c = Some n ∧
           add_knowledge ai c n = Returned ai' ∧
           sound (Minesweeper.mines g) ai' ∧
           mines ai' ⊆ Minesweeper.mines g ∧
           safes ai' ## Minesweeper.mines g.
Proof.
  intros Hwf Hh Hw Hacc Hs Hb Hfree.
  destruct (get_neighbors_in_bounds ai c Hb) as [nb Hnb].
  assert (c ∉ Minesweeper.mines g) as Hc.
  { destruct Hwf as [_ Hag]. intros [_ Hmine]%Hag. congruence. }
  destruct (add_knowledge_sound _ ai c nb Hs Hacc Hc Hnb) as (ai' & Hret & Hs').
  exists (Z.of_nat (size (nb ∩ Minesweeper.mines g))), ai'.
  split_and!; [by eapply nearby_mines_neighbors|done|done| |];
    by destruct Hs' as (? & ? & _).
Qed.

Lemma reveal_keeps_sound_witness :
  let g := Minesweeper.Build 2 3 {[(1, 1); (0, 2)]}
             [[false; false; true]; [false; true; false]] ∅ in
  ∃ n ai', Minesweeper.nearby_mines g (0, 0) = Some n ∧
           add_knowledge (init 2 3) (0, 0) n = Returned ai' ∧
           sound (Minesweeper.mines g) ai'.
Proof.
  intros g.
  assert (Minesweeper.well_formed g) as Hwf.
  { apply (init_Ok_well_formed 2 3 2 [(1, 1); (3, 4); (0, 5)]%nat).
    by vm_compute. }
  assert (sound (Minesweeper.mines g) (init 2 3)) as Hs.
  { split_and!; simpl; [apply disjoint_empty_l|apply empty_subseteq
                       |apply disjoint_empty_l|].
    intros s Hin. by apply elem_of_nil in Hin. }
  destruct (reveal_keeps_sound g (init 2 3) (0, 0) Hwf eq_refl eq_refl
              eq_refl Hs) as (n & ai' & H1 & H2 & H3 & _).
  - unfold in_bounds. simpl. lia.
  - by vm_compute.
  - exists n, ai'. split_and!; [exact H1|exact H2|exact H3].
Defined.

(** X4.  One truthful reveal keeps the agent sound: if everything the
    agent believes is true of the field with mines [M], the guard set is
    empty, and a cell of the grid that is free of a mine is revealed with
    the number of mines among its neighbours, then [add_knowledge] returns,
    everything the agent believes afterwards is still true of [M], and
    nothing it knew is lost. *)
Theorem truthful_reveal_sound M ai c nb :
  sound M ai → accounted_mines ai = ∅ → c ∉ M →
  get_neighbors ai c = Some nb →
  ∃ ai', add_knowledge ai c (Z.of_nat (size (nb ∩ M))) = Returned ai' ∧
         sound M ai' ∧
         mines ai ⊆ mines ai' ∧ mines ai' ⊆ M ∧
         safes ai ⊆ safes ai' ∧ safes ai' ## M ∧ c ∈ safes ai'.
Proof.
  intros Hs Hacc Hc Hnb.
  destruct (add_knowledge_sound M ai c nb Hs Hacc Hc Hnb) as (ai' & Hret & Hs').
  exists ai'. pose proof (add_knowledge_grows ai c (Z.of_nat (size (nb ∩ M))))
    as [Hg1 Hg2].
  pose proof (mark_safe_grows ai c) as [Hms _].
  pose proof (add_knowledge_cases ai c (Z.of_nat (size (nb ∩ M)))) as Hcases.
  rewrite Hret in Hg1, Hg2. simpl in Hg1, Hg2.
  pose proof Hs' as (Hsafe & Hmine & _).
  assert (c ∈ safes ai') as Hin.
  { destruct Hcases as [[? _]|(nb' & count' & _ & Hr)]; [congruence|].
    rewrite Hret in Hr. injection Hr as ->.
    eapply (proj1 (infer_grows _)).
    unfold append_sentence, set_knowledge, set_moves_made. cbn [safes].
    rewrite mark_safe_safes. set_solver. }
  by split_and!.
Qed.

Lemma truthful_reveal_sound_witness :
  let M : gset cell := {[(0, 2)]} in
  let ai := Build 1 3 {[(0, 1)]} ∅ {[(0, 1)]} ∅
              [Sentence.Build {[(0, 0); (0, 2)]} 1] in
  sound M ai ∧
  ∃ ai', add_knowledge ai (0, 0) (Z.of_nat (size ({[(0, 1)]} ∩ M)))
         = Returned ai' ∧ sound M ai' ∧ mines ai' ⊆ M.
Proof.
  intros M ai.
  assert (sound M ai) as Hs.
  { split_and!; simpl; [set_solver|set_solver|set_solver|].
    intros s ->%list_elem_of_singleton. by vm_compute. }
  split; [exact Hs|].
  destruct (truthful_reveal_sound M ai (0, 0) {[(0, 1)]} Hs)
    as (ai' & H1 & H2 & _ & H3 & _);
    [reflexivity|set_solver|by vm_compute|].
  exists ai'. split_and!; [exact H1|exact H2|exact H3].
Defined.

(** * The constructor can return *)

Lemma board_set_agrees (h w : Z) (b : list (list bool)) (i j : Z)
    (ms : gset cell) (b' : list (list bool)) :
  (∀ x y, (x, y) ∈ ms ↔
          (0 ≤ x < h ∧ 0 ≤ y < w) ∧
          Minesweeper.board_get b x y = Some true) →
  0 ≤ i < h → 0 ≤ j < w →
  (∀ x y, 0 ≤ x < h → 0 ≤ y < w →
     Minesweeper.board_get b' x y
     = if decide (x = i ∧ y = j) then Some true
       else Minesweeper.board_get b x y) →
  ∀ x y, (x, y) ∈ ms ∪ {[(i, j)]} ↔
         (0 ≤ x < h ∧ 0 ≤ y < w) ∧
         Minesweeper.board_get b' x y = Some true.
Proof.
  intros Hag Hi Hj Hget x y.
  rewrite elem_of_union, elem_of_singleton, Hag. split.
  - intros [[Hb Ht]|[= -> ->]].
    + split; [done|]. rewrite Hget by lia. destruct (decide _); done.
    + split; [done|]. rewrite Hget by lia. by rewrite decide_True.
  - intros [Hb Ht]. rewrite Hget in Ht by lia.
    destruct (decide (x = i ∧ y = j)) as [[-> ->]|]; [by right|by left].
Qed.

(** Random numbers that visit the cells of the field row by row. *)
Lemma place_mines_row_major h w target :
  0 < h → 0 < w → 0 ≤ target ≤ h * w →
  ∀ len k (ms : gset cell) b,
    Z.of_nat k + Z.of_nat len = target →
    Minesweeper.shaped h w b →
    (∀ x y, (x, y) ∈ ms ↔
            (0 ≤ x < h ∧ 0 ≤ y < w) ∧
            Minesweeper.board_get b x y = Some true) →
    size ms = k →
    (∀ x y, (x, y) ∈ ms → x * w + y < Z.of_nat k) →
    ∃ ms' b',
      Minesweeper.place_mines
        ((λ n, (n / Z.to_nat w, n `mod` Z.to_nat w)%nat) <$> seq k len)
        h w target ms b
      = Minesweeper.Ok (ms', b').
Proof.
  intros Hh Hw Ht. induction len as [|len IH]; intros k ms b Hk Hsh Hag Hsz Hidx.
  - simpl. rewrite decide_True by lia. eauto.
  - simpl. rewrite decide_False, (decide_False (P := h ≤ 0)),
      (decide_False (P := w ≤ 0)) by lia.
    set (i := Z.of_nat (k / Z.to_nat w) `mod` h).
    set (j := Z.of_nat (k `mod` Z.to_nat w) `mod` w).
    assert (Z.of_nat (k / Z.to_nat w) = Z.of_nat k / w) as Hdiv
      by (rewrite Nat2Z.inj_div; f_equal; lia).
    assert (Z.of_nat (k `mod` Z.to_nat w) = Z.of_nat k `mod` w) as Hmod
      by (rewrite Nat2Z.inj_mod; f_equal; lia).
    assert (0 ≤ Z.of_nat k `mod` w < w) as Hj by (apply Z.mod_pos_bound; lia).
    assert (0 ≤ Z.of_nat k / w < h) as Hi.
    { split; [apply Z.div_pos; lia|]. apply Z.div_lt_upper_bound; lia. }
    assert (i = Z.of_nat k / w) as Hi'
      by (unfold i; rewrite Hdiv; apply Z.mod_small; lia).
    assert (j = Z.of_nat k `mod` w) as Hj'
      by (unfold j; rewrite Hmod; apply Z.mod_small; lia).
    assert (i * w + j = Z.of_nat k) as Hij.
    { rewrite Hi', Hj'. pose proof (Z.div_mod (Z.of_nat k) w). lia. }
    destruct (board_get_in_range h w b i j Hsh) as (row & v & _ & _ & Hv);
      [lia|lia|].
    assert ((i, j) ∉ ms) as Hfresh by (intros Hin%Hidx; lia).
    rewrite Hv. destruct v.
    { exfalso. apply Hfresh, Hag. split; [lia|done]. }
    destruct (board_set_spec h w b i j Hsh) as (b' & -> & Hsh' & Hget);
      [lia|lia|].
    apply (IH (S k)); [lia|done| | |].
    + apply (board_set_agrees h w b); [done|lia|lia|done].
    + rewrite size_union, size_singleton by set_solver. lia.
    + intros x y [Hin%Hidx|[= -> ->]%elem_of_singleton]%elem_of_union; lia.
Qed.

(** X18.  On a field with cells, for every number of mines between 0
    and the number of cells there are random numbers for which the
    constructor returns; with X15 this is exactly the range for which it
    can return. *)
Theorem Minesweeper_init_can_return h w target :
  0 < h → 0 < w → 0 ≤ target ≤ h * w →
  ∃ draws g, Minesweeper.init h w target draws = Minesweeper.Ok g ∧
             Z.of_nat (size (Minesweeper.mines g)) = target.
Proof.
  intros Hh Hw Ht.
  destruct (place_mines_row_major h w target Hh Hw Ht (Z.to_nat target) 0 ∅
              (Minesweeper.empty_board h w)) as (ms & b & Hplace).
  - lia.
  - apply empty_board_shaped.
  - intros x y. split; [set_solver|]. intros [[Hx Hy] Hget].
    rewrite empty_board_get in Hget by done. done.
  - apply size_empty.
  - set_solver.
  - eexists _, (Minesweeper.Build h w ms b ∅).
    assert (Minesweeper.init h w target
              ((λ n, (n / Z.to_nat w, n `mod` Z.to_nat w)%nat)
                 <$> seq 0 (Z.to_nat target))
            = Minesweeper.Ok (Minesweeper.Build h w ms b ∅)) as Hinit
      by (unfold Minesweeper.init; by rewrite Hplace).
    split; [exact Hinit|]. by apply init_Ok_well_formed in Hinit as (_&_&_&?&_).
Qed.

Lemma Minesweeper_init_can_return_witness :
  ∃ draws g, Minesweeper.init 2 3 6 draws = Minesweeper.Ok g ∧
             Z.of_nat (size (Minesweeper.mines g)) = 6.
Proof. apply (Minesweeper_init_can_return 2 3 6); lia. Defined.

(** * Marks compose *)

Lemma Sentence_mark_safe_twice s a :
  Sentence.mark_safe (Sentence.mark_safe s a) a = Sentence.mark_safe s a.
Proof. rewrite !Sentence_mark_safe_eq. simpl. f_equal. set_solver. Qed.

Lemma Sentence_mark_mine_twice s a :
  Sentence.mark_mine (Sentence.mark_mine s a) a = Sentence.mark_mine s a.
Proof.
  unfold Sentence.mark_mine at 1.
  rewrite decide_False; [done|]. rewrite Sentence_mark_mine_cells. set_solver.
Qed.

Lemma Sentence_mark_safe_mine_comm s a b :
  a ≠ b →
  Sentence.mark_safe (Sentence.mark_mine s a) b
  = Sentence.mark_mine (Sentence.mark_safe s b) a.
Proof.
  intros Hab. rewrite Sentence_mark_safe_eq, !Sentence_mark_mine_eq,
    Sentence_mark_safe_eq. simpl. f_equal; [set_solver|].
  destruct (decide (a ∈ Sentence.cells s)) as [Ha|Ha].
  - by rewrite decide_True by set_solver.
  - by rewrite decide_False by set_solver.
Qed.

(** X19.  Marking a cell twice is the same as marking it once, marks of
    the same kind commute, and marking one cell safe commutes with marking
    a different cell as a mine. *)
Theorem mark_ops_compose ai a b :
  mark_safe (mark_safe ai a) a = mark_safe ai a ∧
  mark_mine (mark_mine ai a) a = mark_mine ai a ∧
  mark_safe (mark_safe ai a) b = mark_safe (mark_safe ai b) a ∧
  mark_mine (mark_mine ai a) b = mark_mine (mark_mine ai b) a ∧
  (a ≠ b → mark_safe (mark_mine ai a) b = mark_mine (mark_safe ai b) a).
Proof.
  split_and!.
  - rewrite !mark_safe_eq. simpl. f_equal; [set_solver|set_solver|].
    rewrite <- list_fmap_compose. apply list_fmap_ext. intros _ s _. simpl.
    apply Sentence_mark_safe_twice.
  - unfold mark_mine, set_knowledge, set_mines. simpl. f_equal; [set_solver|].
    rewrite <- list_fmap_compose. apply list_fmap_ext. intros _ s _. simpl.
    apply Sentence_mark_mine_twice.
  - apply mark_safe_comm.
  - apply mark_mine_comm.
  - intros Hab. rewrite mark_safe_eq, (mark_safe_eq ai b).
    unfold mark_mine, set_knowledge, set_mines. simpl. f_equal.
    rewrite <- !list_fmap_compose. apply list_fmap_ext. intros _ s _. simpl.
    by apply Sentence_mark_safe_mine_comm.
Qed.

Lemma mark_ops_compose_witness :
  let ai := Build 3 2 {[(0, 1)]} ∅ {[(0, 1)]} ∅
              [Sentence.Build {[(0, 0); (1, 0); (1, 1)]} 1] in
  mark_safe (mark_mine ai (1, 0)) (0, 0) = mark_mine (mark_safe ai (0, 0)) (1, 0).
Proof.
  intros ai. destruct (mark_ops_compose ai (1, 0) (0, 0)) as (_ & _ & _ & _ & H).
  apply H. intros [=].
Defined.

(** X20.  [add_knowledge] returns exactly for the cells of the grid; for
    every other cell it raises [KeyError]. *)
Theorem add_knowledge_returns_iff ai c count :
  (∃ ai', add_knowledge ai c count = Returned ai') ↔ in_bounds ai c.
Proof.
  split.
  - intros [ai' Hret].
    destruct (add_knowledge_cases ai c count)
      as [[_ [Hr|Hr]]|(nb & count' & Hnb & _)]; try congruence.
    destruct (decide (0 ≤ c.1 < height ai ∧ 0 ≤ c.2 < width ai)) as [|Hout];
      [done|].
    apply (get_neighbors_out_of_bounds ai c) in Hout. congruence.
  - apply add_knowledge_returns.
Qed.

(** * Played cells and safe cells *)

Lemma played_safe_mark_safe ai c :
  moves_made ai ⊆ safes ai →
  moves_made (mark_safe ai c) ⊆ safes (mark_safe ai c).
Proof. rewrite mark_safe_moves_made, mark_safe_safes. set_solver. Qed.

Lemma played_safe_infer_step n ai k :
  moves_made ai ⊆ safes ai →
  moves_made (infer_step n ai k) ⊆ safes (infer_step n ai k).
Proof.
  intros Hsub.
  destruct (infer_step_cases n ai k) as [->|(s & cs & _ & _ & [->| ->])];
    [done| |].
  - apply (foldl_invariant mark_safe (λ a, moves_made a ⊆ safes a)); [done|].
    intros a' x _. apply played_safe_mark_safe.
  - by apply (foldl_invariant mark_mine (λ a, moves_made a ⊆ safes a)).
Qed.

(** X21.  The mark operations and [add_knowledge] keep every played
    cell among the safe cells; [play] does not: the cell it returns is
    played and not recorded as safe when it returns. *)
Theorem played_cells_safe ai :
  (∀ o, moves_made ai ⊆ safes ai →
        moves_made (run_op ai o) ⊆ safes (run_op ai o)) ∧
  (∀ r c, (play ai r).1 = Some c →
          c ∈ moves_made (play ai r).2 ∧ c ∉ safes (play ai r).2).
Proof.
  split.
  - intros [c|c|c count] Hsub; cbn [run_op].
    + done.
    + by apply played_safe_mark_safe.
    + pose proof (played_safe_mark_safe ai c Hsub) as Hsub1.
      destruct (add_knowledge_cases ai c count)
        as [[_ [-> | ->]]|(nb & count' & _ & ->)]; cbn [state_of].
      * done.
      * unfold set_moves_made. cbn [safes moves_made].
        rewrite mark_safe_safes. rewrite mark_safe_safes in Hsub1. set_solver.
      * unfold infer.
        apply (foldl_invariant _ (λ a, moves_made a ⊆ safes a)).
        -- unfold append_sentence, set_knowledge, set_moves_made.
           cbn [safes moves_made]. rewrite mark_safe_safes.
           rewrite mark_safe_safes in Hsub1. set_solver.
        -- intros a' k _. apply played_safe_infer_step.
  - intros r c. unfold play.
    destruct (make_safe_move ai) as [c0|] eqn:Hsafe.
    + simpl. intros [= <-]. set_solver.
    + apply make_safe_move_None in Hsafe.
      destruct (make_random_move ai r) as [c0|] eqn:Hrand; simpl; [|done].
      apply make_random_move_Some in Hrand as (_ & Hp & _).
      intros [= <-]. set_solver.
Qed.

Lemma played_cells_safe_witness :
  let ai := Build 1 3 {[(0, 1)]} {[(0, 2)]} {[(0, 1)]} ∅ [] in
  moves_made ai ⊆ safes ai ∧
  moves_made (run_op ai (AddKnowledge (0, 0) 1))
  ⊆ safes (run_op ai (AddKnowledge (0, 0) 1)) ∧
  (0, 0) ∈ moves_made (play ai 5).2 ∧ ((0, 0) ∉ safes (play ai 5).2).
Proof.
  intros ai.
  assert (moves_made ai ⊆ safes ai) as Hsub by (simpl; set_solver).
  assert ((play ai 5).1 = Some (0, 0)) as Hplay by (by vm_compute).
  destruct (played_cells_safe ai) as [H1 H2].
  destruct (H2 5%nat (0, 0) Hplay) as [H3 H4].
  split_and!; [exact Hsub|exact (H1 _ Hsub)|exact H3|exact H4].
Defined.
